(** * VerbaVox: the SRT text filter, the per-file processing pipeline and the
      document export, embedded from the TypeScript sources.

    Source files covered:
    - [src/components/FileProcessor.tsx]  (stripSrtTimecodes, handleTranslate,
      handleGenerateScript, handleDownloadSrt, quotesBySpeaker, renderContent)
    - [src/utils/docxGenerator.ts]        (stripSrtTimecodes, formatFileName,
      quotesBySpeaker, quoteSections)
    - [src/App.tsx]                       (handleFilesSelected; and the service
      module with hasSrtTimecodes, translateText)
    - [src/components/FileUploader.tsx]   (the TranscriptionStatus enum)

    A JavaScript string is a sequence of UTF-16 code units; it is modelled as
    a list of code units, each an [N]. *)

From Stdlib Require Import List NArith Bool String Ascii Lia Arith FunInd.
Import ListNotations.

Set Implicit Arguments.

(* ================================================================== *)
(** * JavaScript strings *)
(* ================================================================== *)

Module JS.

Definition code := N.
Definition str := list code.

(** A source literal (ASCII) as a sequence of code units. *)
Definition lit (s : string) : str := map N_of_ascii (list_ascii_of_string s).

Definition LF : code := 10%N.
Definition CR : code := 13%N.
Definition DOT : code := 46%N.

Definition isLF (c : code) : bool := N.eqb c LF.
Definition isCR (c : code) : bool := N.eqb c CR.

(** [!!s] for a string: only the empty string is falsy. *)
Definition truthy (s : str) : bool :=
  match s with [] => false | _ :: _ => true end.

(** [!!v] for a value of type [string | null]. *)
Definition truthyOpt (v : option str) : bool :=
  match v with Some s => truthy s | None => false end.

Fixpoint str_eqb (a b : str) : bool :=
  match a, b with
  | [], [] => true
  | x :: a', y :: b' => N.eqb x y && str_eqb a' b'
  | _, _ => false
  end.

(** ECMAScript WhiteSpace and LineTerminator code points: what
    [String.prototype.trim] strips and what [\s] matches. *)
Definition isWhiteSpace (c : code) : bool :=
  ((9 <=? c) && (c <=? 13) || (c =? 32) || (c =? 160) || (c =? 5760)
   || ((8192 <=? c) && (c <=? 8202)) || (c =? 8232) || (c =? 8233)
   || (c =? 8239) || (c =? 8287) || (c =? 12288) || (c =? 65279))%N.

(** [\d] (no unicode flag): the ten ASCII digits. *)
Definition isDigit (c : code) : bool := ((48 <=? c) && (c <=? 57))%N.

Fixpoint trimStart (s : str) : str :=
  match s with
  | [] => []
  | c :: s' => if isWhiteSpace c then trimStart s' else s
  end.

Definition trimEnd (s : str) : str := rev (trimStart (rev s)).

(** [s.trim()] *)
Definition trim (s : str) : str := trimEnd (trimStart s).

Fixpoint startsWith (p s : str) : bool :=
  match p, s with
  | [], _ => true
  | x :: p', y :: s' => N.eqb x y && startsWith p' s'
  | _ :: _, [] => false
  end.

(** [s.includes(p)] *)
Fixpoint includes (p s : str) : bool :=
  startsWith p s ||
  match s with
  | [] => false
  | _ :: s' => includes p s'
  end.

(** [parts.join(sep)] *)
Fixpoint join (sep : str) (parts : list str) : str :=
  match parts with
  | [] => []
  | [p] => p
  | p :: rest => p ++ sep ++ join sep rest
  end.

(** Prepend a code unit to the first piece of a split. *)
Definition consHead (c : code) (parts : list str) : list str :=
  match parts with
  | [] => [[c]]
  | p :: rest => (c :: p) :: rest
  end.

(** [s.split(/\r?\n/)]: a separator is CR LF when a CR is directly followed
    by LF, and LF otherwise; a CR not followed by LF stays in its line. *)
Fixpoint splitLines (s : str) : list str :=
  match s with
  | [] => [[]]
  | c :: rest =>
      if isLF c then [] :: splitLines rest
      else match rest with
           | d :: rest' =>
               if isCR c && isLF d then [] :: splitLines rest'
               else consHead c (splitLines rest)
           | [] => consHead c (splitLines rest)
           end
  end.

(** [s.split(sep)] for a one-unit separator string. *)
Fixpoint splitOn (sep : code) (s : str) : list str :=
  match s with
  | [] => [[]]
  | c :: rest =>
      if N.eqb c sep then [] :: splitOn sep rest
      else consHead c (splitOn sep rest)
  end.

(** [s.lastIndexOf(sep)] for a one-unit [sep]; [None] is the source's -1. *)
Fixpoint lastIndexOf (sep : code) (s : str) : option nat :=
  match s with
  | [] => None
  | c :: rest =>
      match lastIndexOf sep rest with
      | Some i => Some (S i)
      | None => if N.eqb c sep then Some 0 else None
      end
  end.

(** Comparison of two strings with [<], [>=]: lexicographic on code units. *)
Fixpoint ltb (a b : str) : bool :=
  match a, b with
  | _, [] => false
  | [], _ :: _ => true
  | x :: a', y :: b' => N.ltb x y || (N.eqb x y && ltb a' b')
  end.

Definition geb (a b : str) : bool := negb (ltb a b).
Definition gtb (a b : str) : bool := ltb b a.

(** ** Regular expressions of the shape the sources use: a sequence of
    one-unit classes, each taken once or starred. *)

Inductive item : Type :=
| One (cls : code -> bool)
| Star (cls : code -> bool)
| Eos.

Definition regex := list item.

Definition chr (c : code) : code -> bool := fun x => N.eqb x c.

(** [cls*] followed by the rest of the pattern: try the rest here, or
    take one more unit of the class. *)
Fixpoint starLoop (cls : code -> bool) (rest : str -> bool) (t : str) : bool :=
  rest t ||
  match t with
  | c :: t' => cls c && starLoop cls rest t'
  | [] => false
  end.

(** Does a match of [r] start at the head of [s]? *)
Fixpoint matchHere (r : regex) (s : str) : bool :=
  match r with
  | [] => true
  | One cls :: r' =>
      match s with
      | c :: s' => cls c && matchHere r' s'
      | [] => false
      end
  | Star cls :: r' => starLoop cls (matchHere r') s
  | Eos :: r' =>
      match s with
      | [] => matchHere r' s
      | _ :: _ => false
      end
  end.

(** [/r/.test(s)]: a match may start anywhere. *)
Fixpoint test (r : regex) (s : str) : bool :=
  matchHere r s ||
  match s with
  | [] => false
  | _ :: s' => test r s'
  end.

(** [/^r/.test(s)]: the match starts at the head of the input; [Eos] is
    the [$] anchor (no multiline flag: the end of the whole input). *)
Definition testAtStart (r : regex) (s : str) : bool := matchHere r s.

(** ** Objects used as maps ([Record<string, V>])

    The own properties are kept in creation order.  [Object.entries] lists
    the array-index keys first, in ascending numeric order, and then the
    other string keys in creation order (OrdinaryOwnPropertyKeys). *)

Definition object (V : Type) := list (str * V).

Fixpoint lookup {V} (k : str) (o : object V) : option V :=
  match o with
  | [] => None
  | (k', v) :: o' => if str_eqb k' k then Some v else lookup k o'
  end.

Fixpoint update {V} (k : str) (f : V -> V) (o : object V) : object V :=
  match o with
  | [] => []
  | (k', v) :: o' =>
      if str_eqb k' k then (k', f v) :: o' else (k', v) :: update k f o'
  end.

Definition digitValue (c : code) : N := (c - 48)%N.

Definition decimalValue (s : str) : N :=
  fold_left (fun acc c => (10 * acc + digitValue c)%N) s 0%N.

(** An array index: the canonical decimal form of an integer in
    0 .. 2^32 - 2. *)
Definition arrayIndex (k : str) : option N :=
  match k with
  | [] => None
  | c :: rest =>
      if forallb isDigit k
         && (negb (N.eqb c 48) || match rest with [] => true | _ => false end)
         && (decimalValue k <=? 4294967294)%N
      then Some (decimalValue k) else None
  end.

Fixpoint insertByIndex {V} (e : N * (str * V)) (l : list (N * (str * V)))
  : list (N * (str * V)) :=
  match l with
  | [] => [e]
  | e' :: l' =>
      if (fst e <? fst e')%N then e :: l else e' :: insertByIndex e l'
  end.

Definition sortByIndex {V} (l : list (N * (str * V))) : list (N * (str * V)) :=
  fold_right insertByIndex [] l.

Fixpoint indexed {V} (o : object V) : list (N * (str * V)) :=
  match o with
  | [] => []
  | (k, v) :: o' =>
      match arrayIndex k with
      | Some i => (i, (k, v)) :: indexed o'
      | None => indexed o'
      end
  end.

Definition named {V} (o : object V) : object V :=
  filter (fun kv => match arrayIndex (fst kv) with
                    | Some _ => false | None => true end) o.

(** [Object.entries(o)] *)
Definition entries {V} (o : object V) : list (str * V) :=
  map snd (sortByIndex (indexed o)) ++ named o.

(** The property names every object literal inherits from
    [Object.prototype]; reading one of them on an object that has no own
    property of that name yields the inherited (truthy) value. *)
Definition objectPrototypeKeys : list str :=
  map lit ["constructor"; "hasOwnProperty"; "isPrototypeOf";
           "propertyIsEnumerable"; "toLocaleString"; "toString"; "valueOf";
           "__proto__"; "__defineGetter__"; "__defineSetter__";
           "__lookupGetter__"; "__lookupSetter__"]%string.

Definition inherited (k : str) : bool :=
  existsb (str_eqb k) objectPrototypeKeys.

End JS.

Import JS.

(* ================================================================== *)
(** * types.ts *)
(* ================================================================== *)

(** The enum's members in declaration order; each is a string-valued
    member ([PENDING = 'PENDING'], ...). *)
Inductive TranscriptionStatus : Type :=
| PENDING | TRANSCRIBING | TRANSLATED | SUMMARIZED | COMPLETED | ERROR.

(** The underlying value of a member, which is what [>=] and [>] compare. *)
Definition statusValue (s : TranscriptionStatus) : str :=
  match s with
  | PENDING => lit "PENDING"
  | TRANSCRIBING => lit "TRANSCRIBING"
  | TRANSLATED => lit "TRANSLATED"
  | SUMMARIZED => lit "SUMMARIZED"
  | COMPLETED => lit "COMPLETED"
  | ERROR => lit "ERROR"
  end.

Definition status_eqb (a b : TranscriptionStatus) : bool :=
  str_eqb (statusValue a) (statusValue b).

(** [a >= b] and [a > b] on two statuses. *)
Definition status_geb (a b : TranscriptionStatus) : bool :=
  JS.geb (statusValue a) (statusValue b).
Definition status_gtb (a b : TranscriptionStatus) : bool :=
  JS.gtb (statusValue a) (statusValue b).

Record Language : Type := mkLanguage { langCode : str; langName : str }.

Record ScriptQuote : Type := mkQuote { speaker : str; quote : str }.

(** The fields of a DOM [File] the sources read. *)
Record File : Type := mkFile {
  fileName : str;
  fileSize : N;
  lastModified : N
}.

(** A thrown value: an [Error] with its message, or anything else. *)
Inductive thrown : Type :=
| ErrorObj (message : str)
| NonError.

(** The outcome of an awaited promise. *)
Inductive result (A : Type) : Type :=
| Ok (a : A)
| Throw (e : thrown).
Arguments Ok {A} a.
Arguments Throw {A} e.

(** [e instanceof Error ? e.message : fallback] *)
Definition messageOr (fallback : str) (e : thrown) : str :=
  match e with
  | ErrorObj m => m
  | NonError => fallback
  end.

(* ================================================================== *)
(** * The SRT text filter
      (FileProcessor.tsx lines 25-36; docxGenerator.ts lines 5-16 is the
      same text) *)
(* ================================================================== *)

Definition arrow : str := lit "-->".

(** [/^\d+$/] *)
Definition counterRegex : regex := [One isDigit; Star isDigit; Eos].

Definition isTimecode (line : str) : bool := includes arrow line.
Definition isCounter (line : str) : bool := testAtStart counterRegex (trim line).

(** The callback given to [lines.filter]. *)
Definition keepLine (line : str) : bool :=
  negb (isTimecode line) && negb (isCounter line)
  && negb (str_eqb (trim line) []).

Definition stripSrtTimecodes (srtText : str) : str :=
  if negb (truthy srtText) then []
  else
    let lines := splitLines srtText in
    let textLines := filter keepLine lines in
    join [LF] textLines.

(* ================================================================== *)
(** * services/geminiService.ts *)
(* ================================================================== *)

Module GeminiService.

(** [/\d{2}:\d{2}:\d{2},\d{3}\s*-->\s*\d{2}:\d{2}:\d{2},\d{3}/] *)
Definition COLON : code := 58%N.
Definition COMMA : code := 44%N.
Definition MINUS : code := 45%N.
Definition GT : code := 62%N.

Definition stamp : regex :=
  [One isDigit; One isDigit; One (chr COLON);
   One isDigit; One isDigit; One (chr COLON);
   One isDigit; One isDigit; One (chr COMMA);
   One isDigit; One isDigit; One isDigit].

Definition arrowItems : regex :=
  [One (chr MINUS); One (chr MINUS); One (chr GT)].

Definition timecodeRegex : regex :=
  stamp ++ [Star isWhiteSpace] ++ arrowItems ++ [Star isWhiteSpace] ++ stamp.

Definition hasSrtTimecodes (text : str) : bool := JS.test timecodeRegex text.

Definition QUOTE : code := 34%N.

(** The two template literals of [translateText]. *)
Definition preservePrompt (text targetLanguageName : str) : str :=
  lit "Translate the following text to " ++ targetLanguageName
  ++ lit ", preserving the SRT timecode and speaker formatting for each line. Provide only the translated text, nothing else."
  ++ [LF; LF] ++ lit "TEXT: " ++ [QUOTE] ++ text ++ [QUOTE].

Definition plainPrompt (text targetLanguageName : str) : str :=
  lit "Translate the following text to " ++ targetLanguageName
  ++ lit ". Provide only the translated text, nothing else."
  ++ [LF; LF] ++ lit "TEXT: " ++ [QUOTE] ++ text ++ [QUOTE].

Definition translatePrompt (text targetLanguageName : str) : str :=
  let shouldPreserveTimecodes := hasSrtTimecodes text in
  if shouldPreserveTimecodes
  then preservePrompt text targetLanguageName
  else plainPrompt text targetLanguageName.

Section Remote.

(** [ai.models.generateContent] for a text-only request: the model name and
    the prompt go in, the response text or a failure comes back. *)
Variable generateContent : str -> str -> result str.

Definition translateText (text targetLanguageName : str) : result str :=
  match generateContent (lit "gemini-2.5-flash")
                        (translatePrompt text targetLanguageName) with
  | Ok responseText => Ok responseText
  | Throw _ => Throw (ErrorObj (lit "Failed to translate text."))
  end.

End Remote.

End GeminiService.

(* ================================================================== *)
(** * components/FileProcessor.tsx *)
(* ================================================================== *)

Module FileProcessor.

Record Props : Type := mkProps { file : File; addTimecodes : bool }.

(** The component's [useState] cells. *)
Record State : Type := mkState {
  status : TranscriptionStatus;
  transcript : option str;
  translation : option str;
  script : option (list ScriptQuote);
  error : option str;
  targetLanguage : Language;
  isTranslating : bool;
  isGenerating : bool
}.

Definition setStatus v (s : State) : State :=
  mkState v (transcript s) (translation s) (script s) (error s)
          (targetLanguage s) (isTranslating s) (isGenerating s).
Definition setTranscript v (s : State) : State :=
  mkState (status s) v (translation s) (script s) (error s)
          (targetLanguage s) (isTranslating s) (isGenerating s).
Definition setTranslation v (s : State) : State :=
  mkState (status s) (transcript s) v (script s) (error s)
          (targetLanguage s) (isTranslating s) (isGenerating s).
Definition setScript v (s : State) : State :=
  mkState (status s) (transcript s) (translation s) v (error s)
          (targetLanguage s) (isTranslating s) (isGenerating s).
Definition setError v (s : State) : State :=
  mkState (status s) (transcript s) (translation s) (script s) v
          (targetLanguage s) (isTranslating s) (isGenerating s).
Definition setTargetLanguage v (s : State) : State :=
  mkState (status s) (transcript s) (translation s) (script s) (error s)
          v (isTranslating s) (isGenerating s).
Definition setIsTranslating v (s : State) : State :=
  mkState (status s) (transcript s) (translation s) (script s) (error s)
          (targetLanguage s) v (isGenerating s).
Definition setIsGenerating v (s : State) : State :=
  mkState (status s) (transcript s) (translation s) (script s) (error s)
          (targetLanguage s) (isTranslating s) v.

(** The state of a freshly mounted component; [defaultLanguage] stands for
    [LANGUAGES[1]] of the constants module. *)
Definition initialState (defaultLanguage : Language) : State :=
  mkState PENDING None None None None defaultLanguage false false.

(** An async handler: the state updates it commits, and the service calls
    it awaits in between.  The values a handler reads ([transcript],
    [translation], [targetLanguage], the props) are those of the render
    that created it; its [set...] calls update the current state. *)
Inductive Task : Type :=
| Done (commit : State -> State)
| AwaitTranscribe (commit : State -> State) (f : File) (timecodes : bool)
                  (k : result str -> Task)
| AwaitTranslate (commit : State -> State) (text targetLanguageName : str)
                 (k : result str -> Task)
| AwaitGenerate (commit : State -> State) (text : str)
                (k : result (list ScriptQuote) -> Task).

Definition processTranscription (p : Props) : Task :=
  AwaitTranscribe (setStatus TRANSCRIBING) (file p) (addTimecodes p)
    (fun r =>
       match r with
       | Ok res => Done (fun s => setStatus COMPLETED (setTranscript (Some res) s))
       | Throw e =>
           Done (fun s =>
                   setStatus ERROR
                     (setError (Some (messageOr (lit "An unknown error occurred.") e)) s))
       end).

Definition handleTranslate (rendered : State) : Task :=
  match transcript rendered with
  | Some t =>
      if negb (truthy t) then Done (fun s => s)
      else
        AwaitTranslate
          (fun s => setError None (setIsTranslating true s))
          t (langName (targetLanguage rendered))
          (fun r =>
             match r with
             | Ok res =>
                 Done (fun s =>
                         setIsTranslating false
                           (setStatus TRANSLATED (setTranslation (Some res) s)))
             | Throw e =>
                 Done (fun s =>
                         setIsTranslating false
                           (setError (Some (messageOr (lit "Translation failed.") e)) s))
             end)
  | None => Done (fun s => s)
  end.

(** [textForScript || ""] on a string is the string itself. *)
Definition orEmpty (s : str) : str := if truthy s then s else [].

Definition handleGenerateScript (p : Props) (rendered : State) : Task :=
  match translation rendered with
  | Some t =>
      if negb (truthy t) then Done (fun s => s)
      else
        let textForScript :=
          if addTimecodes p && truthy t then stripSrtTimecodes t else t in
        AwaitGenerate
          (fun s => setError None (setIsGenerating true s))
          (orEmpty textForScript)
          (fun r =>
             match r with
             | Ok res =>
                 Done (fun s =>
                         setIsGenerating false
                           (setStatus SUMMARIZED (setScript (Some res) s)))
             | Throw e =>
                 Done (fun s =>
                         setIsGenerating false
                           (setError (Some (messageOr (lit "Script generation failed.") e)) s))
             end)
  | None => Done (fun s => s)
  end.

(** The imported service functions. *)
Record Services : Type := mkServices {
  transcribeAudio : File -> bool -> result str;
  translateText : str -> str -> result str;
  generateScript : str -> result (list ScriptQuote)
}.

Inductive Call : Type :=
| CallTranscribe (f : File) (timecodes : bool)
| CallTranslate (text targetLanguageName : str)
| CallGenerate (text : str).

(** Run a handler to its end against the services: the final state and the
    service calls made, in order. *)
Fixpoint run (svc : Services) (t : Task) (s : State) : State * list Call :=
  match t with
  | Done commit => (commit s, [])
  | AwaitTranscribe commit f tc k =>
      let (s', calls) := run svc (k (transcribeAudio svc f tc)) (commit s) in
      (s', CallTranscribe f tc :: calls)
  | AwaitTranslate commit text lang k =>
      let (s', calls) := run svc (k (translateText svc text lang)) (commit s) in
      (s', CallTranslate text lang :: calls)
  | AwaitGenerate commit text k =>
      let (s', calls) := run svc (k (generateScript svc text)) (commit s) in
      (s', CallGenerate text :: calls)
  end.

(** The state on screen while the handler waits for its first call. *)
Definition pending (t : Task) (s : State) : State :=
  match t with
  | Done commit => commit s
  | AwaitTranscribe commit _ _ _ => commit s
  | AwaitTranslate commit _ _ _ => commit s
  | AwaitGenerate commit _ _ => commit s
  end.

(** [handleDownloadSrt]: the base name of the downloaded file. *)
Definition baseName (name : str) : str :=
  let stem :=
    match lastIndexOf DOT name with
    | Some i => firstn i name
    | None => []          (* substring(0, -1) is the empty string *)
    end in
  if truthy stem then stem else name.

Definition srtDownloadName (name kind : str) : str :=
  baseName name ++ lit "_" ++ kind ++ lit ".srt".

(** What [renderContent] shows. *)
Inductive View : Type :=
| Spinner
| TranscriptionFailed (message : option str)
| Content (showTranscript showTranslate showTranslation showSrtDownloads
           showGenerate showError showScript : bool).

Definition renderContent (p : Props) (s : State) : View :=
  if status_eqb (status s) TRANSCRIBING then Spinner
  else if status_eqb (status s) ERROR && negb (truthyOpt (transcript s))
  then TranscriptionFailed (error s)
  else
    Content
      (truthyOpt (transcript s))
      (status_geb (status s) COMPLETED && truthyOpt (transcript s))
      (truthyOpt (translation s))
      (truthyOpt (translation s) && addTimecodes p)
      (status_geb (status s) TRANSLATED && truthyOpt (translation s))
      (truthyOpt (error s) && status_gtb (status s) COMPLETED)
      (match script s with Some _ => true | None => false end).

End FileProcessor.

(* ================================================================== *)
(** * utils/docxGenerator.ts *)
(* ================================================================== *)

Module DocxGenerator.

Definition formatFileName (name : str) : str :=
  let parts := splitOn DOT name in
  let parts := removelast parts in          (* parts.pop() *)
  join [DOT] parts ++ lit "_processed.docx".

(** One step of the [reduce]:
    [(acc[q.speaker] = acc[q.speaker] || []).push(q)].
    When the accumulator has no own property of that name but inherits one
    from [Object.prototype], the inherited value is truthy and has no
    [push]: the call throws a TypeError ([None]). *)
Definition groupStep (acc : option (object (list ScriptQuote))) (q : ScriptQuote)
  : option (object (list ScriptQuote)) :=
  match acc with
  | None => None
  | Some o =>
      match lookup (speaker q) o with
      | Some _ => Some (update (speaker q) (fun l => l ++ [q]) o)
      | None =>
          if inherited (speaker q) then None
          else Some (o ++ [(speaker q, [q])])
      end
  end.

(** Also FileProcessor.tsx lines 133-138 (there on [script]). *)
Definition quotesBySpeaker (quotes : list ScriptQuote)
  : option (object (list ScriptQuote)) :=
  fold_left groupStep quotes (Some []).

(** The speaker groups in the order the export and the card list them. *)
Definition speakerGroups (quotes : list ScriptQuote)
  : option (list (str * list ScriptQuote)) :=
  option_map (@entries _) (quotesBySpeaker quotes).

Inductive Paragraph : Type :=
| Title (text : str)
| Heading1 (text : str)
| TextLine (text : str)
| SpeakerHeading (text : str)
| QuoteBlock (text : str).

Definition QUOTE : code := 34%N.

Definition quoteSections (groups : list (str * list ScriptQuote))
  : list Paragraph :=
  flat_map
    (fun g =>
       SpeakerHeading (fst g)
       :: map (fun q => QuoteBlock ([QUOTE] ++ quote q ++ [QUOTE])) (snd g))
    groups.

(** The children of the document's section that come before the quote
    sections. *)
Definition frontMatter (fileName transcript translation : str)
  : list Paragraph :=
  let cleanTranscript := stripSrtTimecodes transcript in
  let cleanTranslation := stripSrtTimecodes translation in
  [Title (lit "Processed Audio: " ++ fileName);
   Heading1 (lit "Original Transcription")]
  ++ map TextLine (splitOn LF cleanTranscript)
  ++ [Heading1 (lit "Translation")]
  ++ map TextLine (splitOn LF cleanTranslation)
  ++ [Heading1 (lit "Key Quotes")].

(** [generateDocx]: the children of the document's section and the name of
    the downloaded file; [None] when grouping the quotes throws. *)
Definition generateDocx (fileName transcript translation : str)
           (quotes : list ScriptQuote) : option (list Paragraph * str) :=
  match speakerGroups quotes with
  | None => None
  | Some groups =>
      Some (frontMatter fileName transcript translation
            ++ quoteSections groups,
            formatFileName fileName)
  end.

End DocxGenerator.

(* ================================================================== *)
(** * App.tsx *)
(* ================================================================== *)

Module App.

(** [ef.name === sf.name && ef.size === sf.size
     && ef.lastModified === sf.lastModified] *)
Definition sameFile (ef sf : File) : bool :=
  str_eqb (fileName ef) (fileName sf)
  && N.eqb (fileSize ef) (fileSize sf)
  && N.eqb (lastModified ef) (lastModified sf).

(** [files] is the queue of the render that created the handler (the
    filter reads it); [prevFiles] is the queue the updater receives. *)
Definition handleFilesSelectedOn (files prevFiles selectedFiles : list File)
  : list File :=
  let newFiles :=
    filter (fun sf => negb (existsb (fun ef => sameFile ef sf) files))
           selectedFiles in
  prevFiles ++ newFiles.

(** One selection handled after the previous one has been rendered. *)
Definition handleFilesSelected (files selectedFiles : list File) : list File :=
  handleFilesSelectedOn files files selectedFiles.

(** The queue after a sequence of selections, starting from the empty
    queue of [useState<File[]>([])]. *)
Definition queueAfter (selections : list (list File)) : list File :=
  fold_left handleFilesSelected selections [].

(** The identity the duplicate check compares. *)
Definition triple (f : File) : str * N * N :=
  (fileName f, fileSize f, lastModified f).

End App.

(* ================================================================== *)
(** * Readings of the specification, for comparison with the code *)
(* ================================================================== *)

Module Spec.

(** The filter as the specification words it: a line goes when it is purely
    numeric, when it matches the timecode-range pattern, or when it is
    blank. *)
Definition removedLine (line : str) : bool :=
  isCounter line
  || GeminiService.hasSrtTimecodes line
  || str_eqb (trim line) [].

Definition srtFilter (text : str) : str :=
  if negb (truthy text) then []
  else join [LF] (filter (fun l => negb (removedLine l)) (splitLines text)).

(** The lines the code's filter drops, said without the code's tests:
    a line that contains the arrow, a line that is only digits once
    trimmed, a line that is only white space. *)
Definition ContainsArrow (line : str) : Prop :=
  exists pre post, line = pre ++ arrow ++ post.

Definition DigitsOnly (line : str) : Prop :=
  trim line <> [] /\ Forall (fun c => (48 <= c <= 57)%N) (trim line).

Definition Blank (line : str) : Prop :=
  Forall (fun c => isWhiteSpace c = true) line.

Definition Dropped (line : str) : Prop :=
  ContainsArrow line \/ DigitsOnly line \/ Blank line.

(** [Kept P lines kept]: [kept] is [lines] without the lines that satisfy
    [P], every other line staying, in the same order. *)
Inductive Kept (P : str -> Prop) : list str -> list str -> Prop :=
| Kept_nil : Kept P [] []
| Kept_drop l lines kept : P l -> Kept P lines kept -> Kept P (l :: lines) kept
| Kept_keep l lines kept :
    ~ P l -> Kept P lines kept -> Kept P (l :: lines) (l :: kept).

(** The unit sequence CR CR LF: a carriage return left in front of a
    CR LF line break. *)
Definition strayCR : str := [CR; CR; LF].

Definition endsWithCR (line : str) : bool := isCR (last line 0%N).

(** No line but the last ends with a carriage return. *)
Fixpoint innerLinesClean (lines : list str) : Prop :=
  match lines with
  | [] => True
  | l :: rest =>
      match rest with
      | [] => True
      | _ :: _ => endsWithCR l = false /\ innerLinesClean rest
      end
  end.

(** The first occurrence of every element, in order of appearance. *)
Fixpoint firstAppearances (l : list str) : list str :=
  match l with
  | [] => []
  | x :: l' =>
      x :: filter (fun y => negb (str_eqb x y)) (firstAppearances l')
  end.

(** A speaker with the quotes attributed to it, in extraction order. *)
Definition groupOf (quotes : list ScriptQuote) (sp : str)
  : str * list ScriptQuote :=
  (sp, filter (fun q => str_eqb (speaker q) sp) quotes).

(** Grouping as the specification words it: the speakers in order of first
    appearance, each with its quotes in extraction order. *)
Definition groupedBySpeaker (quotes : list ScriptQuote)
  : list (str * list ScriptQuote) :=
  map (groupOf quotes) (firstAppearances (map speaker quotes)).

(** The export's file name as the specification words it: the extension,
    when there is one, replaced by the suffix. *)
Definition processedName (name : str) : str :=
  match lastIndexOf DOT name with
  | Some i => firstn i name ++ lit "_processed.docx"
  | None => name ++ lit "_processed.docx"
  end.

(** What the translate action is said to do on a job whose transcript is
    [T]: one call of the translation service, with [T] and the selected
    language's name; and, when the call succeeds, the result stored as the
    translation, the status [TRANSLATED], the transcript still [T]. *)
Definition translateOutcome (svc : FileProcessor.Services)
           (s : FileProcessor.State) (T : str) : Prop :=
  let L := FileProcessor.targetLanguage s in
  let r := FileProcessor.run svc (FileProcessor.handleTranslate s) s in
  snd r = [FileProcessor.CallTranslate T (langName L)] /\
  (forall res,
      FileProcessor.translateText svc T (langName L) = Ok res ->
      FileProcessor.translation (fst r) = Some res /\
      FileProcessor.status (fst r) = TRANSLATED /\
      FileProcessor.transcript (fst r) = Some T).

(** What the quote-extraction action is said to do on a job with the
    timecode option on and translation [t]: one call of the extraction
    service, with the filtered translation. *)
Definition extractOutcome (svc : FileProcessor.Services)
           (p : FileProcessor.Props) (s : FileProcessor.State) (t : str) : Prop :=
  snd (FileProcessor.run svc (FileProcessor.handleGenerateScript p s) s)
  = [FileProcessor.CallGenerate (stripSrtTimecodes t)].

(** The status comparison as the specification reads it: at or past
    [COMPLETED] exactly when there is a transcript and transcription is
    over. *)
Definition hasTranscript (s : FileProcessor.State) : bool :=
  match FileProcessor.transcript s with
  | Some _ => negb (status_eqb (FileProcessor.status s) PENDING)
              && negb (status_eqb (FileProcessor.status s) TRANSCRIBING)
  | None => false
  end.

End Spec.

(* ================================================================== *)
(** * Concrete jobs, files and services used in the examples *)
(* ================================================================== *)

Module Examples.

Import FileProcessor.

Definition spanish : Language := mkLanguage (lit "es") (lit "Spanish").

Definition interview : File := mkFile (lit "interview.mp3") 1024 1700000000000.
Definition lecture : File := mkFile (lit "lecture.wav") 2048 1700000000001.

Definition withTimecodes : Props := mkProps interview true.

(** A service whose three calls succeed. *)
Definition echo : Services :=
  mkServices (fun _ _ => Ok (lit "Speaker 1: hello"))
             (fun _ _ => Ok (lit "Speaker 1: hola"))
             (fun _ => Ok [mkQuote (lit "Speaker 1") (lit "hola")]).

(** A service whose three calls fail the way the service module's
    wrappers do. *)
Definition failing : Services :=
  mkServices (fun _ _ => Throw (ErrorObj (lit "Failed to transcribe audio.")))
             (fun _ _ => Throw (ErrorObj (lit "Failed to translate text.")))
             (fun _ => Throw (ErrorObj (lit "Failed to generate script."))).

(** A job whose transcription came back as the empty text. *)
Definition completedEmpty : State :=
  mkState COMPLETED (Some []) None None None spanish false false.

Definition completedHello : State :=
  mkState COMPLETED (Some (lit "Speaker 1: hello")) None None None spanish
          false false.

(** A job whose translation came back as the empty text. *)
Definition translatedEmpty : State :=
  mkState TRANSLATED (Some (lit "Speaker 1: hello")) (Some []) None None
          spanish false false.

(** A translated job whose translation is one SRT cue. *)
Definition cue : str :=
  lit "1" ++ [LF] ++ lit "00:00:01,234 --> 00:00:05,678" ++ [LF]
  ++ lit "Speaker 1: hola".

Definition translatedCue : State :=
  mkState TRANSLATED (Some (lit "Speaker 1: hello")) (Some cue) None None
          spanish false false.

End Examples.

(* ================================================================== *)
(** * The card, the downloads and the calls in flight *)
(* ================================================================== *)

Module Card.

Import FileProcessor.

(** The sections of the card that [renderContent] shows. *)
Definition showsTranslate (v : View) : bool :=
  match v with Content _ b _ _ _ _ _ => b | _ => false end.
Definition showsGenerate (v : View) : bool :=
  match v with Content _ _ _ _ e _ _ => e | _ => false end.
Definition showsError (v : View) : bool :=
  match v with Content _ _ _ _ _ f _ => f | _ => false end.

(** [handleDownloadDocx]: the export runs only when the transcript, the
    translation and the script are all there. *)
Definition handleDownloadDocx (p : Props) (s : State)
  : option (option (list DocxGenerator.Paragraph * str)) :=
  match transcript s, translation s, script s with
  | Some tr, Some tl, Some quotes =>
      if truthy tr && truthy tl
      then Some (DocxGenerator.generateDocx (fileName (file p)) tr tl quotes)
      else None
  | _, _, _ => None
  end.

(** [handleDownloadSrt]: the name of the downloaded file, or nothing when
    the content is empty. *)
Definition handleDownloadSrt (p : Props) (content kind : str) : option str :=
  if negb (truthy content) then None
  else Some (srtDownloadName (fileName (file p)) kind).

(** A call that has been issued and has not settled yet, with what the
    handler does when it settles. *)
Inductive InFlight : Type :=
| Transcribing (k : result str -> Task)
| Translating (k : result str -> Task)
| Generating (k : result (list ScriptQuote) -> Task).

(** The component between two events: its state and its calls in flight. *)
Record Config : Type := mkConfig { current : State; inflight : list InFlight }.

(** Start a handler (or resume one after a call has settled): commit its
    updates up to the next call, which joins the calls in flight. *)
Definition launch (t : Task) (c : Config) : Config :=
  match t with
  | Done commit => mkConfig (commit (current c)) (inflight c)
  | AwaitTranscribe commit _ _ k =>
      mkConfig (commit (current c)) (Transcribing k :: inflight c)
  | AwaitTranslate commit _ _ k =>
      mkConfig (commit (current c)) (Translating k :: inflight c)
  | AwaitGenerate commit _ k =>
      mkConfig (commit (current c)) (Generating k :: inflight c)
  end.

(** One event of the component.  The handlers read the state of the last
    render; a call in flight settles with any outcome, in any order; the
    props are those of the render at hand. *)
Inductive step : Config -> Config -> Prop :=
| step_transcribe p c :
    step c (launch (processTranscription p) c)
| step_translate c :
    step c (launch (handleTranslate (current c)) c)
| step_generate p c :
    step c (launch (handleGenerateScript p (current c)) c)
| step_select lang c :
    step c (mkConfig (setTargetLanguage lang (current c)) (inflight c))
| step_transcribed k r s before after :
    step (mkConfig s (before ++ Transcribing k :: after))
         (launch (k r) (mkConfig s (before ++ after)))
| step_translated k r s before after :
    step (mkConfig s (before ++ Translating k :: after))
         (launch (k r) (mkConfig s (before ++ after)))
| step_generated k r s before after :
    step (mkConfig s (before ++ Generating k :: after))
         (launch (k r) (mkConfig s (before ++ after))).

(** The configurations a mounted component can be in. *)
Inductive reachable (lang : Language) : Config -> Prop :=
| reachable_mount : reachable lang (mkConfig (initialState lang) [])
| reachable_step c c' : reachable lang c -> step c c' -> reachable lang c'.





Definition hasTranscript (s : State) : Prop := transcript s <> None.




End Card.

(* ================================================================== *)
(** * Speaker labels *)
(* ================================================================== *)

Module Labels.

(** The numeric value of a group's label when the label is an array index. *)
Definition labelIndex (g : str * list ScriptQuote) : N :=
  match arrayIndex (fst g) with
  | Some i => i
  | None => 0%N
  end.

Definition indexLabelled (g : str * list ScriptQuote) : bool :=
  match arrayIndex (fst g) with Some _ => true | None => false end.

(** A quote whose speaker label names a property of [Object.prototype]. *)
Definition inheritedLabel (q : ScriptQuote) : bool := inherited (speaker q).

End Labels.

(* ================================================================== *)
(** * Timecode ranges, said without the pattern *)
(* ================================================================== *)

Module Timecode.

(** [HH:MM:SS,mmm]: twelve units, digits but for the two colons and the
    comma. *)
Definition Stamp (a : str) : Prop :=
  exists h1 h2 m1 m2 s1 s2 f1 f2 f3,
    a = [h1; h2; GeminiService.COLON; m1; m2; GeminiService.COLON;
         s1; s2; GeminiService.COMMA; f1; f2; f3] /\
    forallb isDigit [h1; h2; m1; m2; s1; s2; f1; f2; f3] = true.

(** A text that holds a timecode range: two stamps with the arrow between
    them, any white space (line breaks too) around the arrow. *)
Definition HoldsRange (text : str) : Prop :=
  exists pre a gap1 gap2 b post,
    text = pre ++ a ++ gap1 ++ arrow ++ gap2 ++ b ++ post /\
    Stamp a /\ Stamp b /\
    forallb isWhiteSpace gap1 = true /\ forallb isWhiteSpace gap2 = true.

End Timecode.

(* ================================================================== *)
(** * services/geminiService.ts: reading the file, transcribing *)
(* ================================================================== *)

Module GeminiAudio.

(** [s.split(sep)] for a separator string that is not empty: the text is
    cut at every occurrence of [sep], found from left to right; [skip]
    counts the units of a separator still to pass over. *)
Fixpoint splitAt (sep s : str) (skip : nat) : list str :=
  match s with
  | [] => [[]]
  | c :: rest =>
      match skip with
      | S n => splitAt sep rest n
      | O =>
          if startsWith sep s
          then [] :: splitAt sep rest (List.length sep - 1)
          else consHead c (splitAt sep rest 0)
      end
  end.

Definition split (sep s : str) : list str := splitAt sep s 0.

Definition base64Mark : str := lit ";base64,".

(** The [onload] callback of [fileToBase64] on the reader's result:
    [[mimePart, dataPart] = result.split(';base64,')] and
    [mimeType = mimePart.split(':')[1]]; [None] is [undefined]. *)
Definition parseDataUrl (result : str) : option str * option str :=
  let parts := split base64Mark result in
  let mimePart := nth 0 parts [] in
  let dataPart := nth_error parts 1 in
  let mimeType := nth_error (splitOn GeminiService.COLON mimePart) 1 in
  (mimeType, dataPart).

(** The two instructions of [transcribeAudio]. *)
Definition srtPrompt : str :=
  lit "Transcribe this audio recording accurately. Provide the output in SRT (SubRip Text) file format, including numbered cues with timecodes (e.g., '1\n00:00:01,234 --> 00:00:05,678\nText goes here.'). Separate speakers within the text part of each cue (e.g., 'Speaker 1: ...'). Provide only the SRT formatted text.".

Definition plainPrompt : str :=
  lit "Transcribe this audio recording accurately, separating speakers (e.g., "
  ++ [GeminiService.QUOTE] ++ lit "Speaker 1: ..." ++ [GeminiService.QUOTE]
  ++ lit "). Provide only the transcribed text, with no additional commentary or formatting.".

Section Remote.

(** [FileReader.readAsDataURL]: the data URL of the file, or a failure. *)
Variable readAsDataURL : File -> result str.

(** [ai.models.generateContent] for a request of a text part and an
    inline-data part: the model name, the prompt, the declared type and the
    payload go in, the response text or a failure comes back. *)
Variable generateContent :
  str -> str -> option str -> option str -> result str.

Definition fileToBase64 (file : File) : result (option str * option str) :=
  match readAsDataURL file with
  | Ok result => Ok (parseDataUrl result)
  | Throw e => Throw e
  end.

Definition transcribeAudio (file : File) (addTimecodes : bool) : result str :=
  match fileToBase64 file with
  | Ok (mimeType, data) =>
      let prompt := if addTimecodes then srtPrompt else plainPrompt in
      match generateContent (lit "gemini-2.5-pro") prompt mimeType data with
      | Ok responseText => Ok responseText
      | Throw _ => Throw (ErrorObj (lit "Failed to transcribe audio."))
      end
  | Throw _ => Throw (ErrorObj (lit "Failed to transcribe audio."))
  end.

End Remote.

End GeminiAudio.

(* ================================================================== *)
(** * SRT documents, as the transcription prompt asks for them *)
(* ================================================================== *)

Module SrtDocument.

(** A cue: its counter, the two stamps of its range, its lines of text. *)
Record Cue : Type := mkCue {
  counter : str;
  rangeStart : str;
  rangeEnd : str;
  cueText : list str
}.

Definition rangeLine (c : Cue) : str :=
  rangeStart c ++ lit " --> " ++ rangeEnd c.

(** The lines of a cue: counter, range, text, and a blank line. *)
Definition cueLines (c : Cue) : list str :=
  counter c :: rangeLine c :: cueText c ++ [[]].

(** The document: the lines of the cues, one per line. *)
Definition document (cues : list Cue) : str :=
  join [LF] (flat_map cueLines cues).

(** A line with no line-break unit in it. *)
Definition plainLine (l : str) : Prop := ~ In LF l /\ ~ In CR l.

(** A line of speech: one the filter keeps, with no line-break unit in
    it. *)
Definition SpeechLine (l : str) : Prop :=
  keepLine l = true /\ ~ In LF l /\ ~ In CR l.

Definition WellFormed (c : Cue) : Prop :=
  counter c <> [] /\ forallb isDigit (counter c) = true /\
  Timecode.Stamp (rangeStart c) /\ Timecode.Stamp (rangeEnd c) /\
  Forall SpeechLine (cueText c).

End SrtDocument.

(* ================================================================== *)
(** * The statuses, by name *)
(* ================================================================== *)

Module StatusOrder.

(** The place of a status when the six names are put in alphabetical
    order. *)
Definition alphabeticalRank (s : TranscriptionStatus) : nat :=
  match s with
  | COMPLETED => 0
  | ERROR => 1
  | PENDING => 2
  | SUMMARIZED => 3
  | TRANSCRIBING => 4
  | TRANSLATED => 5
  end.

End StatusOrder.

(* ================================================================== *)
(** * Two sessions: the timecode option switched off, the translation
      service down *)
(* ================================================================== *)

(** The timecode option is a state of [App] that every job receives as its
    [addTimecodes] prop.  Switching it re-renders the mounted jobs with the
    new value, and their effect runs [processTranscription] again (its
    dependencies are [file] and [addTimecodes]). *)
Module Toggle.

Import FileProcessor.

(** The props of the job when it is created: the option is on. *)
Definition created : Props := mkProps Examples.interview true.

(** The props of the same job once the user has switched the option off. *)
Definition toggled : Props := mkProps Examples.interview false.

(** A translation with a blank line between two speakers. *)
Definition talk : str :=
  lit "Speaker 1: hola" ++ [LF; LF] ++ lit "Speaker 2: adios".

Definition service : Services :=
  mkServices
    (fun _ timecodes =>
       Ok (if timecodes then Examples.cue else lit "Speaker 1: hello"))
    (fun _ _ => Ok talk)
    (fun _ => Ok [mkQuote (lit "Speaker 1") (lit "hola")]).

(** The job after its first transcription, made with the option on. *)
Definition transcribed : State :=
  fst (run service (processTranscription created)
           (initialState Examples.spanish)).

(** The option is switched off: the transcription runs again. *)
Definition retranscribed : State :=
  fst (run service (processTranscription toggled) transcribed).

(** The user translates. *)
Definition translated : State :=
  fst (run service (handleTranslate retranscribed) retranscribed).

End Toggle.

Module Outage.

Import FileProcessor.

(** Transcription works, translation and extraction fail. *)
Definition service : Services :=
  mkServices
    (fun _ _ => Ok (lit "Speaker 1: hello"))
    (fun _ _ => Throw (ErrorObj (lit "Failed to translate text.")))
    (fun _ => Throw (ErrorObj (lit "Failed to generate script."))).

End Outage.

(* ================================================================== *)
(** * Properties *)
(* ================================================================== *)

Functional Scheme splitLines_ind := Induction for splitLines Sort Prop.

Import FileProcessor.

(** ** The status comparisons of [renderContent] *)

Lemma status_geb_completed (st : TranscriptionStatus) :
  status_geb st COMPLETED = true.
Proof. destruct st; reflexivity. Qed.

Lemma status_gtb_completed (st : TranscriptionStatus) :
  status_gtb st COMPLETED = negb (status_eqb st COMPLETED).
Proof. destruct st; reflexivity. Qed.

Lemma status_geb_translated (st : TranscriptionStatus) :
  status_geb st TRANSLATED = status_eqb st TRANSLATED.
Proof. destruct st; reflexivity. Qed.

(** On the card, the guard [status >= COMPLETED && transcript] of the
    translate section comes down to [transcript] alone. *)
Lemma translate_section_guard (s : State) :
  status_geb (status s) COMPLETED && truthyOpt (transcript s)
  = truthyOpt (transcript s).
Proof. rewrite status_geb_completed. reflexivity. Qed.

(** [status >= TRANSLATED] is false for a summarized job. *)
Lemma generate_section_guard_summarized :
  status_geb SUMMARIZED TRANSLATED = false.
Proof. reflexivity. Qed.

(** After a failed translation of a completed job the card shows no error:
    the banner is guarded by [error && status > COMPLETED]. *)
Lemma translate_error_hidden_on_completed_job (p : Props) (s : State) :
  status s = COMPLETED ->
  exists a b c d e g, renderContent p s = Content a b c d e false g.
Proof.
  intros H. unfold renderContent. rewrite H. simpl.
  rewrite andb_false_r. repeat eexists.
Qed.

(** The comparisons are made on the enum's string values: for the state
    that [processTranscription] commits before it awaits the service
    (status [TRANSCRIBING], null transcript), [status >= COMPLETED] and
    [status > COMPLETED] both compute to true.  ([renderContent] returns
    the spinner for this state before it comes to either comparison.) *)
Theorem status_ge_completed_while_transcribing (p : Props) (lang : Language) :
  let s := pending (processTranscription p) (initialState lang) in
  status s = TRANSCRIBING /\
  transcript s = None /\
  status_geb (status s) COMPLETED = true /\
  status_gtb (status s) COMPLETED = true /\
  Spec.hasTranscript s = false.
Proof. repeat split. Qed.

(** C10.  The comparisons of [renderContent] with [COMPLETED] do not amount
    to "the job has a transcript and transcription has finished" on the
    states where the card evaluates them.  At the first render of a job
    (status [PENDING], null transcript) the content view is rendered and
    [status >= COMPLETED] holds, with no transcript.  After a transcription
    that succeeded and a translation that failed (status [COMPLETED],
    transcript and error message stored) [status > COMPLETED] does not
    hold, with the transcript there and transcription over, and the error
    banner it guards is not shown. *)
Theorem status_comparisons_against_transcript (p : Props) (lang : Language) :
  let first := initialState lang in
  let done := fst (run Outage.service (processTranscription p) first) in
  let failed := fst (run Outage.service (handleTranslate done) done) in
  (status first = PENDING /\
   transcript first = None /\
   renderContent p first = Content false false false false false false false /\
   status_geb (status first) COMPLETED = true /\
   Spec.hasTranscript first = false) /\
  (status failed = COMPLETED /\
   transcript failed = Some (lit "Speaker 1: hello") /\
   error failed = Some (lit "Failed to translate text.") /\
   Spec.hasTranscript failed = true /\
   status_gtb (status failed) COMPLETED = false /\
   Card.showsError (renderContent p failed) = false).
Proof. repeat split. Qed.

(** ** The translate action *)

Lemma truthy_nonempty (t : str) : t <> [] -> truthy t = true.
Proof. destruct t; [congruence | reflexivity]. Qed.

Lemma handleTranslate_calls (s : State) (T : str) :
  transcript s = Some T -> T <> [] ->
  exists commit k,
    handleTranslate s
    = AwaitTranslate commit T (langName (targetLanguage s)) k.
Proof.
  intros HT Hne. unfold handleTranslate. rewrite HT.
  rewrite (truthy_nonempty Hne). simpl. eauto.
Qed.

(** The guard of the handler: on a transcript that is the empty text,
    [if (!transcript) return] ends it before any call.  (The card offers
    the translate action only under [transcript &&], so the handler is not
    run on such a job.) *)
Lemma translate_empty_transcript_no_call :
  status Examples.completedEmpty = COMPLETED /\
  transcript Examples.completedEmpty = Some [] /\
  run Examples.echo (handleTranslate Examples.completedEmpty)
      Examples.completedEmpty
  = (Examples.completedEmpty, []) /\
  ~ Spec.translateOutcome Examples.echo Examples.completedEmpty [].
Proof.
  repeat split.
  intros [Hcalls _]. vm_compute in Hcalls. discriminate Hcalls.
Qed.

(** The handler on a transcript that is not the empty text. *)
Lemma translate_completed_job (svc : Services) (s : State) (T : str) :
  status s = COMPLETED ->
  transcript s = Some T ->
  T <> [] ->
  Spec.translateOutcome svc s T.
Proof.
  intros _ HT Hne. unfold Spec.translateOutcome, handleTranslate.
  rewrite HT, (truthy_nonempty Hne). cbn [negb run].
  destruct (translateText svc T (langName (targetLanguage s))) as [res|e];
    cbn; split; try reflexivity; intros res' Hres.
  - injection Hres as <-. rewrite HT. auto.
  - discriminate Hres.
Qed.

(** C1.  For every job in the [COMPLETED] state with transcript [T],
    invoking the translate action -- the card offers it -- with selected
    language [L] calls the translation service once, with exactly [T] and
    the name of [L]; when the call succeeds the result becomes the
    translation, the status becomes [TRANSLATED], and the transcript is
    still [T]. *)
Theorem translate_action_on_completed_job
        (svc : Services) (p : Props) (s : State) (T : str) :
  status s = COMPLETED ->
  transcript s = Some T ->
  Card.showsTranslate (renderContent p s) = true ->
  Spec.translateOutcome svc s T.
Proof.
  intros Hs HT Hshown. apply translate_completed_job; try assumption.
  unfold renderContent in Hshown. rewrite Hs, HT in Hshown.
  intros ->. discriminate Hshown.
Qed.

Lemma translate_action_on_completed_job_witness :
  Spec.translateOutcome Examples.echo Examples.completedHello
                        (lit "Speaker 1: hello").
Proof.
  apply (@translate_action_on_completed_job Examples.echo
           Examples.withTimecodes Examples.completedHello
           (lit "Speaker 1: hello")).
  - reflexivity.
  - reflexivity.
  - reflexivity.
Defined.

(** C2.  For every job, if the translation call made by the translate
    action fails, then after the action the transcript and the status are
    what they were before it, and [error] holds a message. *)
Theorem translate_failure_keeps_job (svc : Services) (s : State)
        (text lang : str) (e : thrown) :
  In (CallTranslate text lang) (snd (run svc (handleTranslate s) s)) ->
  translateText svc text lang = Throw e ->
  let s' := fst (run svc (handleTranslate s) s) in
  transcript s' = transcript s /\
  status s' = status s /\
  exists message, error s' = Some message.
Proof.
  unfold handleTranslate.
  destruct (transcript s) as [t|] eqn:HT; [|intros []].
  destruct (truthy t); cbn [negb run]; [|intros []].
  destruct (translateText svc t (langName (targetLanguage s))) as [res|e'] eqn:Hr;
    cbn; intros [Hc|[]] Hfail; injection Hc as Htext Hlang; subst text lang.
  - rewrite Hr in Hfail. discriminate Hfail.
  - rewrite HT. repeat split. eexists. reflexivity.
Qed.

Lemma translate_failure_keeps_job_witness :
  let s' := fst (run Examples.failing (handleTranslate Examples.completedHello)
                     Examples.completedHello) in
  transcript s' = Some (lit "Speaker 1: hello") /\
  status s' = COMPLETED /\
  exists message, error s' = Some message.
Proof.
  apply (@translate_failure_keeps_job Examples.failing Examples.completedHello
           (lit "Speaker 1: hello") (lit "Spanish")
           (ErrorObj (lit "Failed to translate text."))).
  - vm_compute. left. reflexivity.
  - reflexivity.
Defined.

(** ** The quote-extraction action *)

(** The guard of the handler: on a translation that is the empty text,
    [if (!translation) return] ends it before any call.  (The card offers
    the action only under [translation &&], so the handler is not run on
    such a job.) *)
Lemma extract_empty_translation_no_call :
  status Examples.translatedEmpty = TRANSLATED /\
  addTimecodes Examples.withTimecodes = true /\
  translation Examples.translatedEmpty = Some [] /\
  run Examples.echo
      (handleGenerateScript Examples.withTimecodes Examples.translatedEmpty)
      Examples.translatedEmpty
  = (Examples.translatedEmpty, []) /\
  ~ Spec.extractOutcome Examples.echo Examples.withTimecodes
                        Examples.translatedEmpty [].
Proof.
  repeat split.
  intros Hcalls. vm_compute in Hcalls. discriminate Hcalls.
Qed.

(** The handler on a translation that is not the empty text, with the
    timecode option on. *)
Lemma extract_passes_filtered_translation
      (svc : Services) (p : Props) (s : State) (t : str) :
  status s = TRANSLATED ->
  addTimecodes p = true ->
  translation s = Some t ->
  t <> [] ->
  Spec.extractOutcome svc p s t.
Proof.
  intros _ Htc Ht Hne. unfold Spec.extractOutcome, handleGenerateScript.
  rewrite Ht, Htc, (truthy_nonempty Hne). cbn [negb andb run].
  assert (Hor : orEmpty (stripSrtTimecodes t) = stripSrtTimecodes t).
  { unfold orEmpty. destruct (stripSrtTimecodes t); reflexivity. }
  rewrite Hor.
  destruct (generateScript svc (stripSrtTimecodes t)); reflexivity.
Qed.

(** C3 as stated fails on a job that was created with the timecode option
    on and whose option was switched off afterwards.  The job is created
    and transcribed with the option on; the user switches the option off,
    which runs the transcription again; the user translates.  The job is
    in the [TRANSLATED] state, the card offers the quote extraction, and
    the action sends the translation as it is, blank line included, not
    the filtered one: the handler reads the option of the render at
    hand. *)
Lemma option_switched_off_sends_raw_translation :
  addTimecodes Toggle.created = true /\
  status Toggle.transcribed = COMPLETED /\
  Card.reachable Examples.spanish (Card.mkConfig Toggle.translated []) /\
  status Toggle.translated = TRANSLATED /\
  translation Toggle.translated = Some Toggle.talk /\
  Card.showsGenerate (renderContent Toggle.toggled Toggle.translated) = true /\
  snd (run Toggle.service
           (handleGenerateScript Toggle.toggled Toggle.translated)
           Toggle.translated)
  = [CallGenerate Toggle.talk] /\
  stripSrtTimecodes Toggle.talk
  = lit "Speaker 1: hola" ++ [LF] ++ lit "Speaker 2: adios" /\
  stripSrtTimecodes Toggle.talk <> Toggle.talk /\
  ~ Spec.extractOutcome Toggle.service Toggle.toggled Toggle.translated
                        Toggle.talk.
Proof.
  split; [reflexivity|]. split; [reflexivity|]. split.
  { apply Card.reachable_step
      with (c := Card.launch (handleTranslate Toggle.retranscribed)
                             (Card.mkConfig Toggle.retranscribed []));
      [|exact (Card.step_translated _ (Ok Toggle.talk) _ [] [])].
    apply Card.reachable_step
      with (c := Card.mkConfig Toggle.retranscribed []);
      [|apply Card.step_translate].
    apply Card.reachable_step
      with (c := Card.launch (processTranscription Toggle.toggled)
                             (Card.mkConfig Toggle.transcribed []));
      [|exact (Card.step_transcribed _ (Ok (lit "Speaker 1: hello")) _ [] [])].
    apply Card.reachable_step
      with (c := Card.mkConfig Toggle.transcribed []);
      [|apply Card.step_transcribe].
    apply Card.reachable_step
      with (c := Card.launch (processTranscription Toggle.created)
                             (Card.mkConfig (initialState Examples.spanish) []));
      [|exact (Card.step_transcribed _ (Ok Examples.cue) _ [] [])].
    apply Card.reachable_step
      with (c := Card.mkConfig (initialState Examples.spanish) []);
      [|apply Card.step_transcribe].
    apply Card.reachable_mount. }
  repeat split.
  - vm_compute. discriminate.
  - intros H. vm_compute in H. discriminate H.
Qed.

(** C3 (amended).  For every job in the [TRANSLATED] state whose timecode
    option is on when the quote-extraction action is invoked -- the card
    offers it -- the action calls the extraction service once, with the
    SRT-filtered translation, not the raw translation. *)
Theorem extract_action_passes_filtered_translation
        (svc : Services) (p : Props) (s : State) (t : str) :
  status s = TRANSLATED ->
  addTimecodes p = true ->
  translation s = Some t ->
  Card.showsGenerate (renderContent p s) = true ->
  Spec.extractOutcome svc p s t.
Proof.
  intros Hs Htc Ht Hshown.
  apply extract_passes_filtered_translation; try assumption.
  unfold renderContent in Hshown. rewrite Hs, Ht in Hshown.
  intros ->. cbn in Hshown. discriminate Hshown.
Qed.

Lemma extract_action_passes_filtered_translation_witness :
  Spec.extractOutcome Examples.echo Examples.withTimecodes
                      Examples.translatedCue Examples.cue.
Proof.
  apply (@extract_action_passes_filtered_translation Examples.echo
           Examples.withTimecodes Examples.translatedCue Examples.cue).
  - reflexivity.
  - reflexivity.
  - reflexivity.
  - reflexivity.
Defined.

(** ** Strings: equality test *)

Lemma str_eqb_eq (a b : str) : str_eqb a b = true <-> a = b.
Proof.
  revert b. induction a as [|x a IH]; intros [|y b]; simpl; split;
    try congruence; try reflexivity.
  - intros H. apply andb_true_iff in H as [Hx Hab].
    apply N.eqb_eq in Hx. apply IH in Hab. congruence.
  - intros H. injection H as -> ->. rewrite N.eqb_refl. simpl.
    apply IH. reflexivity.
Qed.

Lemma str_eqb_refl (a : str) : str_eqb a a = true.
Proof. apply str_eqb_eq. reflexivity. Qed.

Lemma str_eqb_neq (a b : str) : str_eqb a b = false <-> a <> b.
Proof.
  split.
  - intros H Heq. apply str_eqb_eq in Heq. congruence.
  - intros H. destruct (str_eqb a b) eqn:E; [|reflexivity].
    apply str_eqb_eq in E. contradiction.
Qed.

Lemma str_eqb_sym (a b : str) : str_eqb a b = str_eqb b a.
Proof.
  destruct (str_eqb a b) eqn:E1, (str_eqb b a) eqn:E2; try reflexivity.
  - apply str_eqb_eq in E1. subst. rewrite str_eqb_refl in E2. discriminate.
  - apply str_eqb_eq in E2. subst. rewrite str_eqb_refl in E1. discriminate.
Qed.

(** ** The file queue *)

Lemma sameFile_triple (ef sf : File) :
  App.sameFile ef sf = true <-> App.triple ef = App.triple sf.
Proof.
  unfold App.sameFile, App.triple. split.
  - intros H. apply andb_true_iff in H as [H Hm].
    apply andb_true_iff in H as [Hn Hs].
    apply str_eqb_eq in Hn. apply N.eqb_eq in Hs, Hm. congruence.
  - intros H. injection H as Hn Hs Hm. rewrite Hn, Hs, Hm.
    rewrite str_eqb_refl, !N.eqb_refl. reflexivity.
Qed.

Lemma queued_triple (files : list File) (sf : File) :
  existsb (fun ef => App.sameFile ef sf) files = true
  <-> In (App.triple sf) (map App.triple files).
Proof.
  rewrite existsb_exists, in_map_iff. split.
  - intros [ef [Hin Hs]]. exists ef. split; [|assumption].
    apply sameFile_triple. assumption.
  - intros [ef [Ht Hin]]. exists ef. split; [assumption|].
    apply sameFile_triple. assumption.
Qed.

(** A selected file whose triple is already in the queue is not added. *)
Lemma queued_file_not_added (files selectedFiles : list File) :
  exists newFiles,
    App.handleFilesSelected files selectedFiles = files ++ newFiles /\
    forall f, In f newFiles ->
              In f selectedFiles /\ ~ In (App.triple f) (map App.triple files).
Proof.
  eexists. split; [reflexivity|].
  intros f Hin. apply filter_In in Hin as [Hsel Hnew]. split; [assumption|].
  intros Hq. apply queued_triple in Hq. rewrite Hq in Hnew. discriminate.
Qed.

Lemma NoDup_map_filter {A B} (g : A -> B) (f : A -> bool) (l : list A) :
  NoDup (map g l) -> NoDup (map g (filter f l)).
Proof.
  induction l as [|a l IH]; simpl; intros H; [constructor|].
  inversion H as [|? ? Hnot Hrest]; subst.
  destruct (f a); simpl; [|auto].
  constructor; [|auto].
  intros Hin. apply Hnot. apply in_map_iff in Hin as [x [Hx Hin]].
  apply filter_In in Hin as [Hin _]. apply in_map_iff. eauto.
Qed.

Lemma handleFilesSelected_NoDup (files selectedFiles : list File) :
  NoDup (map App.triple files) ->
  NoDup (map App.triple selectedFiles) ->
  NoDup (map App.triple (App.handleFilesSelected files selectedFiles)).
Proof.
  intros Hf Hs. unfold App.handleFilesSelected, App.handleFilesSelectedOn.
  rewrite map_app. apply NoDup_app; [assumption| |].
  - apply NoDup_map_filter. assumption.
  - intros t Hq Hn. apply in_map_iff in Hn as [f [<- Hin]].
    apply filter_In in Hin as [_ Hnew].
    apply queued_triple in Hq. rewrite Hq in Hnew. discriminate.
Qed.

(** C9 as stated fails when one selection holds two files with the same
    (name, size, last-modified) triple: the filter compares the selected
    files with the queue only, so both are queued. *)
Lemma selection_with_twin_files_queues_both :
  App.queueAfter [[Examples.interview; Examples.interview]]
  = [Examples.interview; Examples.interview] /\
  ~ NoDup (map App.triple
               (App.queueAfter [[Examples.interview; Examples.interview]])).
Proof.
  split; [reflexivity|].
  intros H. vm_compute in H. inversion H as [|? ? Hnot _]; subst.
  apply Hnot. left. reflexivity.
Qed.

Lemma queueAfter_NoDup (selections : list (list File)) :
  Forall (fun sel => NoDup (map App.triple sel)) selections ->
  NoDup (map App.triple (App.queueAfter selections)).
Proof.
  unfold App.queueAfter.
  assert (G : forall q, NoDup (map App.triple q) ->
                        Forall (fun sel => NoDup (map App.triple sel)) selections ->
                        NoDup (map App.triple
                                   (fold_left App.handleFilesSelected selections q))).
  { induction selections as [|sel rest IH]; intros q Hq Hall; simpl.
    - assumption.
    - inversion Hall; subst. apply IH; [|assumption].
      apply handleFilesSelected_NoDup; assumption. }
  apply G. constructor.
Qed.

(** C9 (amended).  For every queue and every selection, a selected file
    whose (name, size, last-modified) triple equals that of an
    already-queued file does not create a second job: the queue is kept as
    it is, and every job added is a selected file whose triple the queue
    did not hold.  And if no single selection holds two files with the
    same triple, then after any sequence of selections no two jobs of the
    queue have the same triple. *)
Theorem queue_has_no_twin_jobs (selections : list (list File)) :
  (forall files selectedFiles,
    exists newFiles,
      App.handleFilesSelected files selectedFiles = files ++ newFiles /\
      forall f, In f newFiles ->
                In f selectedFiles /\
                ~ In (App.triple f) (map App.triple files)) /\
  (Forall (fun sel => NoDup (map App.triple sel)) selections ->
   NoDup (map App.triple (App.queueAfter selections))).
Proof.
  split.
  - intros files selectedFiles. apply queued_file_not_added.
  - apply queueAfter_NoDup.
Qed.

Lemma queue_has_no_twin_jobs_witness :
  NoDup (map App.triple
             (App.queueAfter [[Examples.interview];
                              [Examples.interview; Examples.lecture]])).
Proof.
  apply (proj2 (@queue_has_no_twin_jobs
                  [[Examples.interview];
                   [Examples.interview; Examples.lecture]])).
  repeat constructor; simpl; intuition discriminate.
Defined.

(** The filter reads the queue of the render that created the handler: a
    selection handled before the previous one is rendered is compared with
    the older queue. *)
Lemma stale_queue_admits_twin :
  App.handleFilesSelectedOn [] [Examples.interview] [Examples.interview]
  = [Examples.interview; Examples.interview].
Proof. reflexivity. Qed.

(** ** The export's file name *)

Lemma splitOn_no_separator (sep : code) (s : str) :
  lastIndexOf sep s = None -> splitOn sep s = [s].
Proof.
  induction s as [|c s IH]; simpl; [reflexivity|].
  destruct (lastIndexOf sep s); [discriminate|].
  destruct (N.eqb c sep); [discriminate|].
  intros _. rewrite IH; reflexivity.
Qed.

Lemma splitOn_two_parts (sep : code) (s : str) (i : nat) :
  lastIndexOf sep s = Some i -> exists a b l, splitOn sep s = a :: b :: l.
Proof.
  revert i. induction s as [|c s IH]; simpl; intros i; [discriminate|].
  destruct (lastIndexOf sep s) as [j|] eqn:E.
  - destruct (IH j eq_refl) as [a [b [l Hl]]]. rewrite Hl. intros _.
    destruct (N.eqb c sep); simpl; eauto.
  - destruct (N.eqb c sep); [|discriminate]. intros _.
    rewrite (splitOn_no_separator _ _ E). eauto.
Qed.

Lemma join_cons_piece (sep : code) (c : code) (a : str) (l : list str) :
  join [sep] ((c :: a) :: l) = c :: join [sep] (a :: l).
Proof. destruct l; reflexivity. Qed.

(** When the name has a dot, everything from the last dot on is replaced. *)
Lemma formatFileName_with_extension (name : str) (i : nat) :
  lastIndexOf DOT name = Some i ->
  DocxGenerator.formatFileName name = firstn i name ++ lit "_processed.docx".
Proof.
  unfold DocxGenerator.formatFileName. intros H. f_equal.
  revert i H. induction name as [|c name IH]; simpl; intros i; [discriminate|].
  destruct (lastIndexOf DOT name) as [j|] eqn:E.
  - intros Hi. injection Hi as <-.
    destruct (splitOn_two_parts _ _ E) as [a [b [l Hl]]].
    specialize (IH j eq_refl). rewrite Hl in IH |- *.
    destruct (N.eqb c DOT) eqn:Ec.
    + apply N.eqb_eq in Ec. subst c.
      change (firstn (S j) (DOT :: name)) with (DOT :: firstn j name).
      rewrite <- IH. reflexivity.
    + change (firstn (S j) (c :: name)) with (c :: firstn j name).
      rewrite <- IH. simpl consHead.
      change (removelast ((c :: a) :: b :: l))
        with ((c :: a) :: removelast (b :: l)).
      change (removelast (a :: b :: l)) with (a :: removelast (b :: l)).
      apply join_cons_piece.
  - destruct (N.eqb c DOT); [|discriminate]. intros Hi. injection Hi as <-.
    rewrite (splitOn_no_separator _ _ E). reflexivity.
Qed.

(** C8.  On a source name without a dot the export's name is not the source
    name with the suffix: [formatFileName] drops the whole name, where the
    SRT download's [baseName] keeps it. *)
Theorem formatFileName_without_extension :
  DocxGenerator.formatFileName (lit "interview.mp3")
  = lit "interview_processed.docx" /\
  DocxGenerator.formatFileName (lit "interview") = lit "_processed.docx" /\
  Spec.processedName (lit "interview") = lit "interview_processed.docx" /\
  baseName (lit "interview") = lit "interview".
Proof. repeat split. Qed.

(** ** Grouping the quotes by speaker *)

Lemma firstAppearances_In (l : list str) (y : str) :
  In y (Spec.firstAppearances l) <-> In y l.
Proof.
  induction l as [|x l IH]; simpl; [tauto|].
  rewrite filter_In, IH. split.
  - intros [H|[H _]]; auto.
  - intros [H|H]; [auto|].
    destruct (str_eqb x y) eqn:E.
    + apply str_eqb_eq in E. auto.
    + right. split; [assumption|reflexivity].
Qed.

Lemma NoDup_filter {A} (f : A -> bool) (l : list A) :
  NoDup l -> NoDup (filter f l).
Proof.
  induction 1 as [|a l Hnot Hnd IH]; simpl; [constructor|].
  destruct (f a); [|assumption].
  constructor; [|assumption].
  intros Hin. apply filter_In in Hin as [Hin _]. contradiction.
Qed.

Lemma firstAppearances_NoDup (l : list str) : NoDup (Spec.firstAppearances l).
Proof.
  induction l as [|x l IH]; simpl; constructor.
  - intros Hin. apply filter_In in Hin as [_ Hne].
    rewrite str_eqb_refl in Hne. discriminate.
  - apply NoDup_filter. assumption.
Qed.

Lemma existsb_str_In (x : str) (l : list str) :
  existsb (str_eqb x) l = true <-> In x l.
Proof.
  rewrite existsb_exists. split.
  - intros [y [Hin E]]. apply str_eqb_eq in E. subst. assumption.
  - intros Hin. exists x. split; [assumption|apply str_eqb_refl].
Qed.

Lemma firstAppearances_snoc (l : list str) (x : str) :
  Spec.firstAppearances (l ++ [x])
  = if existsb (str_eqb x) l then Spec.firstAppearances l
    else Spec.firstAppearances l ++ [x].
Proof.
  induction l as [|y l IH]; simpl; [reflexivity|].
  rewrite IH. rewrite (str_eqb_sym x y).
  destruct (str_eqb y x) eqn:Eyx; simpl.
  - apply str_eqb_eq in Eyx. subst y.
    destruct (existsb (str_eqb x) l); [reflexivity|].
    rewrite filter_app. simpl. rewrite str_eqb_refl. simpl.
    rewrite app_nil_r. reflexivity.
  - destruct (existsb (str_eqb x) l); [reflexivity|].
    rewrite filter_app. simpl. rewrite Eyx. reflexivity.
Qed.

Lemma existsb_firstAppearances (x : str) (l : list str) :
  existsb (str_eqb x) (Spec.firstAppearances l) = existsb (str_eqb x) l.
Proof.
  destruct (existsb (str_eqb x) l) eqn:E.
  - apply (proj2 (existsb_str_In _ _)).
    apply (proj2 (firstAppearances_In _ _)).
    apply (proj1 (existsb_str_In _ _)). assumption.
  - destruct (existsb (str_eqb x) (Spec.firstAppearances l)) eqn:E';
      [|reflexivity].
    apply (proj1 (existsb_str_In _ _)) in E'.
    apply (proj1 (firstAppearances_In _ _)) in E'.
    apply (proj2 (existsb_str_In _ _)) in E'. congruence.
Qed.

Lemma lookup_groups {V} (h : str -> V) (k : str) (keys : list str) :
  lookup k (map (fun sp => (sp, h sp)) keys)
  = if existsb (str_eqb k) keys then Some (h k) else None.
Proof.
  induction keys as [|sp keys IH]; simpl; [reflexivity|].
  rewrite (str_eqb_sym k sp).
  destruct (str_eqb sp k) eqn:E; simpl; [|assumption].
  apply str_eqb_eq in E. subst. reflexivity.
Qed.

Lemma update_groups {V} (h : str -> V) (f : V -> V) (k : str) (keys : list str) :
  NoDup keys ->
  update k f (map (fun sp => (sp, h sp)) keys)
  = map (fun sp => (sp, if str_eqb sp k then f (h sp) else h sp)) keys.
Proof.
  induction 1 as [|sp keys Hnot Hnd IH]; simpl; [reflexivity|].
  destruct (str_eqb sp k) eqn:E.
  - f_equal. apply map_ext_in. intros sp' Hin.
    destruct (str_eqb sp' k) eqn:E'; [|reflexivity].
    apply str_eqb_eq in E, E'. subst. contradiction.
  - f_equal. assumption.
Qed.

Lemma filter_none {A} (f : A -> bool) (l : list A) :
  (forall a, In a l -> f a = false) -> filter f l = [].
Proof.
  induction l as [|a l IH]; simpl; intros H; [reflexivity|].
  rewrite (H a (or_introl eq_refl)). apply IH. intros b Hb. apply H. auto.
Qed.

(** One step of the reduce keeps the groups in order of first appearance. *)
Lemma groupStep_grouped (quotes : list ScriptQuote) (q : ScriptQuote) :
  inherited (speaker q) = false ->
  DocxGenerator.groupStep (Some (Spec.groupedBySpeaker quotes)) q
  = Some (Spec.groupedBySpeaker (quotes ++ [q])).
Proof.
  intros Hinh. unfold DocxGenerator.groupStep, Spec.groupedBySpeaker.
  unfold Spec.groupOf at 1.
  rewrite lookup_groups, existsb_firstAppearances.
  rewrite (map_app speaker). simpl (map speaker [q]).
  rewrite firstAppearances_snoc.
  destruct (existsb (str_eqb (speaker q)) (map speaker quotes)) eqn:E.
  - f_equal. unfold Spec.groupOf at 1.
    rewrite update_groups by apply firstAppearances_NoDup.
    apply map_ext. intros sp. unfold Spec.groupOf. f_equal.
    rewrite filter_app. simpl.
    rewrite (str_eqb_sym (speaker q) sp).
    destruct (str_eqb sp (speaker q)); [reflexivity|].
    rewrite app_nil_r. reflexivity.
  - rewrite Hinh. f_equal. rewrite map_app. f_equal.
    + apply map_ext_in. intros sp Hin. unfold Spec.groupOf. f_equal.
      rewrite filter_app. simpl.
      destruct (str_eqb (speaker q) sp) eqn:Es;
        [|rewrite app_nil_r; reflexivity].
      apply str_eqb_eq in Es. subst sp.
      apply (proj1 (firstAppearances_In _ _)) in Hin.
      apply (proj2 (existsb_str_In _ _)) in Hin. congruence.
    + simpl. unfold Spec.groupOf. f_equal. f_equal.
      rewrite filter_app. simpl. rewrite str_eqb_refl.
      rewrite filter_none; [reflexivity|].
      intros a Ha. apply str_eqb_neq. intros Heq.
      assert (Hin : In (speaker q) (map speaker quotes)).
      { rewrite <- Heq. apply in_map. assumption. }
      apply (proj2 (existsb_str_In _ _)) in Hin. congruence.
Qed.

(** The own properties of the accumulator, in creation order. *)
Lemma quotesBySpeaker_creation_order (quotes : list ScriptQuote) :
  Forall (fun q => inherited (speaker q) = false) quotes ->
  DocxGenerator.quotesBySpeaker quotes = Some (Spec.groupedBySpeaker quotes).
Proof.
  unfold DocxGenerator.quotesBySpeaker.
  induction quotes as [|q quotes IH] using rev_ind; intros H; [reflexivity|].
  apply Forall_app in H as [Hqs Hq]. inversion Hq; subst.
  rewrite fold_left_app. simpl. rewrite IH by assumption.
  apply groupStep_grouped. assumption.
Qed.

Lemma indexed_none {V} (o : object V) :
  Forall (fun kv => arrayIndex (fst kv) = None) o -> indexed o = [].
Proof.
  induction 1 as [|[k v] o Hk Ho IH]; simpl in *; [reflexivity|].
  rewrite Hk. assumption.
Qed.

Lemma named_all {V} (o : object V) :
  Forall (fun kv => arrayIndex (fst kv) = None) o -> named o = o.
Proof.
  unfold named.
  induction 1 as [|[k v] o Hk Ho IH]; simpl in *; [reflexivity|].
  rewrite Hk. f_equal. assumption.
Qed.

(** Without array-index keys, [Object.entries] is the creation order. *)
Lemma entries_creation_order {V} (o : object V) :
  Forall (fun kv => arrayIndex (fst kv) = None) o -> entries o = o.
Proof.
  intros H. unfold entries. rewrite indexed_none, named_all by assumption.
  reflexivity.
Qed.

(** C7 as stated fails when a speaker label is a decimal integer: such keys
    are listed before the others, whatever the order of appearance. *)
Lemma numeric_speaker_listed_first :
  let quotes := [mkQuote (lit "Host") (lit "Welcome.");
                 mkQuote (lit "1") (lit "Thank you.")] in
  option_map (map fst) (DocxGenerator.speakerGroups quotes)
  = Some [lit "1"; lit "Host"] /\
  map fst (Spec.groupedBySpeaker quotes) = [lit "Host"; lit "1"] /\
  DocxGenerator.speakerGroups quotes <> Some (Spec.groupedBySpeaker quotes).
Proof.
  repeat split. vm_compute. discriminate.
Qed.

Lemma speakerGroups_plain_labels (quotes : list ScriptQuote) :
  Forall (fun q => arrayIndex (speaker q) = None
                   /\ inherited (speaker q) = false) quotes ->
  DocxGenerator.speakerGroups quotes = Some (Spec.groupedBySpeaker quotes).
Proof.
  intros H. unfold DocxGenerator.speakerGroups.
  rewrite quotesBySpeaker_creation_order.
  - simpl. f_equal. apply entries_creation_order.
    unfold Spec.groupedBySpeaker. apply Forall_forall.
    intros kv Hin. apply in_map_iff in Hin as [sp [<- Hsp]]. simpl.
    apply (proj1 (firstAppearances_In _ _)) in Hsp.
    apply in_map_iff in Hsp as [q [<- Hq]].
    rewrite Forall_forall in H. apply (H q Hq).
  - apply Forall_impl with (2 := H). intros q [_ Hq]. exact Hq.
Qed.

(** C7 (amended).  For every list of extracted quotes in which no speaker
    label is an array index (a canonical decimal integer) or the name of a
    property inherited from [Object.prototype], the speaker groups are
    listed in the order of each speaker's first appearance in the quote
    list, and within each group the quotes are in extraction order; the
    Key Quotes section of the exported document is made of these groups,
    in this order. *)
Theorem speaker_groups_in_first_appearance_order (quotes : list ScriptQuote) :
  Forall (fun q => arrayIndex (speaker q) = None
                   /\ inherited (speaker q) = false) quotes ->
  DocxGenerator.speakerGroups quotes = Some (Spec.groupedBySpeaker quotes) /\
  forall fileName transcript translation,
    DocxGenerator.generateDocx fileName transcript translation quotes
    = Some (DocxGenerator.frontMatter fileName transcript translation
            ++ DocxGenerator.quoteSections (Spec.groupedBySpeaker quotes),
            DocxGenerator.formatFileName fileName).
Proof.
  intros H. apply speakerGroups_plain_labels in H. split; [assumption|].
  intros fileName transcript translation.
  unfold DocxGenerator.generateDocx. rewrite H. reflexivity.
Qed.

Lemma speaker_groups_in_first_appearance_order_witness :
  DocxGenerator.speakerGroups
    [mkQuote (lit "Host") (lit "Welcome.");
     mkQuote (lit "Guest") (lit "Thank you.");
     mkQuote (lit "Host") (lit "Let us begin.")]
  = Some [(lit "Host", [mkQuote (lit "Host") (lit "Welcome.");
                        mkQuote (lit "Host") (lit "Let us begin.")]);
          (lit "Guest", [mkQuote (lit "Guest") (lit "Thank you.")])].
Proof.
  apply (@speaker_groups_in_first_appearance_order
           [mkQuote (lit "Host") (lit "Welcome.");
            mkQuote (lit "Guest") (lit "Thank you.");
            mkQuote (lit "Host") (lit "Let us begin.")]).
  repeat constructor.
Defined.

(** ** Strings: prefixes, substrings, trimming *)

Lemma startsWith_iff (p s : str) :
  startsWith p s = true <-> exists post, s = p ++ post.
Proof.
  revert s. induction p as [|x p IH]; intros s; simpl.
  - split; eauto.
  - destruct s as [|y s].
    + split; [discriminate|]. intros [post H]. discriminate.
    + rewrite andb_true_iff, N.eqb_eq, IH. split.
      * intros [-> [post ->]]. eauto.
      * intros [post H]. injection H as -> ->. eauto.
Qed.

Lemma includes_iff (p s : str) :
  includes p s = true <-> exists pre post, s = pre ++ p ++ post.
Proof.
  induction s as [|y s IH]; simpl.
  - rewrite orb_false_r, startsWith_iff. split.
    + intros [post H]. exists [], post. assumption.
    + intros [pre [post H]]. destruct pre; [eauto|discriminate].
  - rewrite orb_true_iff, startsWith_iff, IH. split.
    + intros [[post H]|[pre [post H]]].
      * exists [], post. assumption.
      * exists (y :: pre), post. rewrite H. reflexivity.
    + intros [pre [post H]]. destruct pre as [|z pre].
      * left. eauto.
      * right. injection H as _ H. eauto.
Qed.

Lemma includes_cons (p s : str) (c : code) :
  includes p s = true -> includes p (c :: s) = true.
Proof. intros H. simpl. rewrite H. apply orb_true_r. Qed.

Lemma trimStart_nil (s : str) :
  trimStart s = [] <-> forallb isWhiteSpace s = true.
Proof.
  induction s as [|c s IH]; simpl; [tauto|].
  destruct (isWhiteSpace c); simpl; [assumption|].
  split; discriminate.
Qed.

Lemma trimStart_blank (s : str) :
  forallb isWhiteSpace (trimStart s) = true -> trimStart s = [].
Proof.
  induction s as [|c s IH]; simpl; [reflexivity|].
  destruct (isWhiteSpace c) eqn:E; [assumption|].
  simpl. rewrite E. discriminate.
Qed.

Lemma forallb_rev {A} (f : A -> bool) (l : list A) :
  forallb f (rev l) = forallb f l.
Proof.
  induction l as [|a l IH]; simpl; [reflexivity|].
  rewrite forallb_app, IH. simpl. rewrite andb_true_r. apply andb_comm.
Qed.

Lemma trim_nil (s : str) : trim s = [] <-> forallb isWhiteSpace s = true.
Proof.
  unfold trim, trimEnd. split.
  - intros H. apply (f_equal (@rev code)) in H. rewrite rev_involutive in H.
    simpl in H. apply trimStart_nil in H. rewrite forallb_rev in H.
    apply trimStart_nil. apply trimStart_blank. assumption.
  - intros H. apply trimStart_nil in H. rewrite H. reflexivity.
Qed.

Lemma isDigit_range (c : code) : isDigit c = true <-> (48 <= c <= 57)%N.
Proof.
  unfold isDigit. rewrite andb_true_iff, !N.leb_le. tauto.
Qed.

Lemma digits_then_end (t : str) :
  starLoop isDigit (matchHere [Eos]) t = forallb isDigit t.
Proof.
  induction t as [|c t IH]; [reflexivity|].
  change (starLoop isDigit (matchHere [Eos]) (c :: t))
    with (false || (isDigit c && starLoop isDigit (matchHere [Eos]) t)).
  rewrite IH. reflexivity.
Qed.

(** [/^\d+$/.test(t)]: [t] is not empty and all its units are digits. *)
Lemma counterRegex_digits (t : str) :
  testAtStart counterRegex t = true
  <-> t <> [] /\ Forall (fun c => (48 <= c <= 57)%N) t.
Proof.
  unfold testAtStart, counterRegex. destruct t as [|c t].
  - simpl. split; [discriminate|]. intros [H _]. congruence.
  - cbn [matchHere]. rewrite digits_then_end, andb_true_iff.
    rewrite isDigit_range, forallb_forall. split.
    + intros [Hc Ht]. split; [discriminate|]. constructor; [assumption|].
      apply Forall_forall. intros x Hx. apply isDigit_range. auto.
    + intros [_ H]. inversion H as [|? ? Hc Ht]; subst. split; [assumption|].
      intros x Hx. apply isDigit_range. rewrite Forall_forall in Ht. auto.
Qed.

(** ** The SRT filter: which lines go *)

Lemma keepLine_false (line : str) :
  keepLine line = false <-> Spec.Dropped line.
Proof.
  unfold keepLine, Spec.Dropped, isTimecode, isCounter.
  rewrite !andb_false_iff, !negb_false_iff.
  assert (Ha : includes arrow line = true <-> Spec.ContainsArrow line)
    by apply includes_iff.
  assert (Hd : testAtStart counterRegex (trim line) = true
               <-> Spec.DigitsOnly line)
    by apply counterRegex_digits.
  assert (Hb : str_eqb (trim line) [] = true <-> Spec.Blank line).
  { rewrite str_eqb_eq, trim_nil, forallb_forall. unfold Spec.Blank.
    rewrite Forall_forall. reflexivity. }
  tauto.
Qed.

Lemma filter_Kept (P : str -> Prop) (f : str -> bool) (lines : list str) :
  (forall l, f l = false <-> P l) -> Spec.Kept P lines (filter f lines).
Proof.
  intros H. induction lines as [|l lines IH]; simpl; [constructor|].
  destruct (f l) eqn:E.
  - apply Spec.Kept_keep; [|assumption]. intros HP. apply H in HP. congruence.
  - apply Spec.Kept_drop; [|assumption]. apply H. assumption.
Qed.

(** ** The timecode pattern of the service module *)

(** A match of [r1 ++ r2] at the head of [s] leaves a suffix of [s] at
    whose head [r2] matches. *)
Lemma matchHere_app (r1 r2 : regex) (s : str) :
  matchHere (r1 ++ r2) s = true ->
  exists pre rest, s = pre ++ rest /\ matchHere r2 rest = true.
Proof.
  revert s. induction r1 as [|[cls|cls|] r1 IH]; intros s H.
  - exists [], s. split; [reflexivity|assumption].
  - destruct s as [|c s]; simpl in H; [discriminate|].
    apply andb_true_iff in H as [_ H].
    destruct (IH s H) as [pre [rest [-> Hr]]].
    exists (c :: pre), rest. split; [reflexivity|assumption].
  - change (starLoop cls (matchHere (r1 ++ r2)) s = true) in H.
    induction s as [|c s IHs].
    + simpl in H. rewrite orb_false_r in H. apply IH. assumption.
    + simpl in H. apply orb_true_iff in H as [H|H].
      * apply IH. assumption.
      * apply andb_true_iff in H as [_ H].
        destruct (IHs H) as [pre [rest [-> Hr]]].
        exists (c :: pre), rest. split; [reflexivity|assumption].
  - destruct s as [|c s]; simpl in H; [|discriminate].
    apply IH. assumption.
Qed.

Lemma test_matchHere (r : regex) (s : str) :
  JS.test r s = true ->
  exists pre rest, s = pre ++ rest /\ matchHere r rest = true.
Proof.
  induction s as [|c s IH]; simpl; intros H.
  - rewrite orb_false_r in H. exists [], []. split; [reflexivity|assumption].
  - apply orb_true_iff in H as [H|H].
    + exists [], (c :: s). split; [reflexivity|assumption].
    + destruct (IH H) as [pre [rest [-> Hr]]].
      exists (c :: pre), rest. split; [reflexivity|assumption].
Qed.

Lemma arrowItems_startsWith (r : regex) (s : str) :
  matchHere (GeminiService.arrowItems ++ r) s = true ->
  startsWith arrow s = true.
Proof.
  destruct s as [|a [|b [|c s]]]; simpl; intros H;
    try discriminate;
    try (apply andb_true_iff in H as [_ H]; discriminate);
    try (apply andb_true_iff in H as [_ H];
         apply andb_true_iff in H as [_ H]; discriminate).
  apply andb_true_iff in H as [Ha H].
  apply andb_true_iff in H as [Hb H].
  apply andb_true_iff in H as [Hc _].
  unfold chr in Ha, Hb, Hc. apply N.eqb_eq in Ha, Hb, Hc. subst.
  reflexivity.
Qed.

(** A text in which the timecode pattern matches contains the arrow. *)
Lemma hasSrtTimecodes_arrow (text : str) :
  GeminiService.hasSrtTimecodes text = true -> includes arrow text = true.
Proof.
  unfold GeminiService.hasSrtTimecodes, GeminiService.timecodeRegex.
  intros H. apply test_matchHere in H as [pre [rest [-> H]]].
  rewrite app_assoc in H.
  apply matchHere_app in H as [pre' [rest' [-> H]]].
  apply arrowItems_startsWith in H.
  apply startsWith_iff in H as [post ->].
  apply includes_iff. exists (pre ++ pre'), post.
  rewrite <- app_assoc. reflexivity.
Qed.

(** ** Lines of a text *)

Lemma consHead_In (c : code) (l : str) (parts : list str) :
  In l parts -> In l (consHead c parts) \/ In (c :: l) (consHead c parts).
Proof.
  destruct parts as [|p parts]; simpl; [tauto|].
  intros [->|H]; auto.
Qed.

Lemma splitLines_cons (c d : code) (rest : str) :
  isLF c = false -> isCR c && isLF d = false ->
  splitLines (c :: d :: rest) = consHead c (splitLines (d :: rest)).
Proof. intros Hc Hd. cbn [splitLines]. rewrite Hc, Hd. reflexivity. Qed.

Lemma splitLines_arrow_head (s : str) :
  startsWith arrow s = true ->
  exists l lines, splitLines s = l :: lines /\ startsWith arrow l = true.
Proof.
  intros H. apply startsWith_iff in H as [post ->].
  change (arrow ++ post) with (45 :: 45 :: 62 :: post)%N.
  rewrite !splitLines_cons by reflexivity.
  destruct post as [|e post].
  - simpl. eauto.
  - rewrite splitLines_cons by reflexivity.
    destruct (splitLines (e :: post)) as [|p ps]; simpl; eauto.
Qed.

(** The arrow has no line break in it: a text that contains it has a line
    that contains it. *)
Lemma includes_arrow_line (s : str) :
  includes arrow s = true ->
  exists line, In line (splitLines s) /\ includes arrow line = true.
Proof.
  functional induction (splitLines s); intros H.
  - discriminate H.
  - apply N.eqb_eq in e0. subst c. simpl in H.
    destruct (IHl H) as [line [Hin Hl]]. exists line. simpl. auto.
  - simpl in H. rewrite andb_false_r in H. discriminate H.
  - apply andb_true_iff in e2 as [Hc Hd].
    apply N.eqb_eq in Hc, Hd. subst c d. simpl in H.
    destruct (IHl H) as [line [Hin Hl]]. exists line. simpl. auto.
  - rewrite <- (splitLines_cons _ _ _ e0 e2).
    change (includes arrow (c :: d :: rest'))
      with (startsWith arrow (c :: d :: rest') || includes arrow (d :: rest'))
      in H.
    apply orb_true_iff in H as [H|H].
    + destruct (splitLines_arrow_head _ H) as [l [lines [-> Hl]]].
      exists l. split; [left; reflexivity|].
      destruct l; simpl; simpl in Hl; rewrite Hl; reflexivity.
    + destruct (IHl H) as [line [Hin Hl]].
      rewrite (splitLines_cons _ _ _ e0 e2).
      destruct (consHead_In c _ _ Hin) as [Hin'|Hin'].
      * exists line. auto.
      * exists (c :: line). split; [assumption|].
        apply includes_cons. assumption.
Qed.

(** C4 as stated fails on a line that contains the arrow without being a
    timecode range: the line is neither numeric, nor a match of the
    timecode pattern, nor blank, and the filter removes it all the same. *)
Lemma arrow_line_removed_without_timecode :
  let line := lit "see --> below" in
  splitLines line = [line] /\
  (isCounter line || GeminiService.hasSrtTimecodes line
   || str_eqb (trim line) []) = false /\
  Spec.srtFilter line = line /\
  stripSrtTimecodes line = [].
Proof. repeat split. Qed.

(** C4 (amended).  For every input text, the SRT filter removes exactly the
    lines that contain the arrow [-->] (every line that matches the
    timecode-range pattern is one of them), the lines that are only digits
    once trimmed, and the lines that are only white space; all remaining
    lines are preserved in their original order and joined with newlines;
    the empty input yields the empty output.  The lines of a text are its
    pieces between line breaks (CR LF or LF). *)
Theorem srt_filter_removed_lines (text : str) :
  (exists kept,
      Spec.Kept Spec.Dropped (splitLines text) kept /\
      stripSrtTimecodes text = join [LF] kept) /\
  (forall line,
      GeminiService.hasSrtTimecodes line = true -> Spec.ContainsArrow line) /\
  stripSrtTimecodes [] = [].
Proof.
  split; [|split; [|reflexivity]].
  - exists (filter keepLine (splitLines text)). split.
    + apply filter_Kept. apply keepLine_false.
    + destruct text; reflexivity.
  - intros line H. apply includes_iff, hasSrtTimecodes_arrow. assumption.
Qed.

(** ** The translate prompt *)

Lemma prompts_differ (text lang : str) :
  GeminiService.preservePrompt text lang <> GeminiService.plainPrompt text lang.
Proof.
  unfold GeminiService.preservePrompt, GeminiService.plainPrompt. intros H.
  apply app_inv_head in H. apply app_inv_head in H.
  vm_compute in H. discriminate H.
Qed.

Lemma preserve_prompt_iff (text lang : str) :
  GeminiService.translatePrompt text lang
  = GeminiService.preservePrompt text lang
  <-> GeminiService.hasSrtTimecodes text = true.
Proof.
  unfold GeminiService.translatePrompt.
  destruct (GeminiService.hasSrtTimecodes text); split; try reflexivity.
  - intros H. symmetry in H. apply prompts_differ in H. contradiction.
  - discriminate.
Qed.

(** C6 as stated fails on a text with an arrow line that is not a timecode
    range: the filter removes the line as a timecode line, and the
    translation uses the plain prompt. *)
Lemma arrow_line_gets_plain_prompt :
  let text := lit "see --> below" in
  In text (splitLines text) /\
  isTimecode text = true /\
  keepLine text = false /\
  GeminiService.hasSrtTimecodes text = false /\
  GeminiService.translatePrompt text (lit "Spanish")
  = GeminiService.plainPrompt text (lit "Spanish").
Proof. repeat split. left. reflexivity. Qed.

(** C6 (amended).  For every input text, if the translate operation uses
    the timecode-preserving instruction, then the text contains a line the
    SRT filter removes as a timecode line (a line that contains the
    arrow). *)
Theorem preserve_prompt_timecode_line (text lang : str) :
  GeminiService.translatePrompt text lang
  = GeminiService.preservePrompt text lang ->
  exists line,
    In line (splitLines text) /\ isTimecode line = true
    /\ keepLine line = false.
Proof.
  intros H. apply preserve_prompt_iff in H.
  apply hasSrtTimecodes_arrow, includes_arrow_line in H.
  destruct H as [line [Hin Hl]]. exists line. repeat split; try assumption.
  unfold keepLine. unfold isTimecode at 1. rewrite Hl. reflexivity.
Qed.

Lemma preserve_prompt_timecode_line_witness :
  exists line,
    In line (splitLines Examples.cue) /\ isTimecode line = true
    /\ keepLine line = false.
Proof.
  apply (@preserve_prompt_timecode_line Examples.cue (lit "Spanish")).
  reflexivity.
Defined.

(** ** The SRT filter applied twice *)

Lemma consHead_Forall (P : str -> Prop) (c : code) (parts : list str) :
  (forall l, P l -> P (c :: l)) -> P [c] ->
  Forall P parts -> Forall P (consHead c parts).
Proof.
  intros Hc H1 H. destruct H as [|p parts Hp Hps]; simpl.
  - constructor; [assumption|constructor].
  - constructor; [apply Hc; assumption|assumption].
Qed.

(** No line of a text holds a line feed. *)
Lemma splitLines_no_LF (s : str) :
  Forall (fun l => ~ In LF l) (splitLines s).
Proof.
  assert (Hcons : forall c parts,
             isLF c = false ->
             Forall (fun l => ~ In LF l) parts ->
             Forall (fun l => ~ In LF l) (consHead c parts)).
  { intros c parts Hc. apply N.eqb_neq in Hc.
    apply consHead_Forall; simpl; intuition congruence. }
  functional induction (splitLines s); auto.
Qed.

Lemma splitLines_line (l : str) : ~ In LF l -> splitLines l = [l].
Proof.
  induction l as [|c l IH]; intros H; [reflexivity|].
  assert (Hc : isLF c = false).
  { apply N.eqb_neq. intros ->. apply H. left. reflexivity. }
  assert (Hl : ~ In LF l) by (intros Hin; apply H; right; assumption).
  destruct l as [|d l].
  - simpl. rewrite Hc. reflexivity.
  - assert (Hd : isLF d = false).
    { apply N.eqb_neq. intros ->. apply Hl. left. reflexivity. }
    rewrite splitLines_cons; [|assumption|rewrite Hd; apply andb_false_r].
    rewrite IH by assumption. reflexivity.
Qed.

Lemma splitLines_line_break (l t : str) :
  ~ In LF l -> Spec.endsWithCR l = false ->
  splitLines (l ++ LF :: t) = l :: splitLines t.
Proof.
  induction l as [|c l IH]; intros H Hcr; [reflexivity|].
  assert (Hc : isLF c = false).
  { apply N.eqb_neq. intros ->. apply H. left. reflexivity. }
  assert (Hl : ~ In LF l) by (intros Hin; apply H; right; assumption).
  destruct l as [|d l].
  - change (([c] ++ LF :: t)) with (c :: LF :: t).
    rewrite splitLines_cons; [reflexivity|assumption|].
    unfold Spec.endsWithCR in Hcr. simpl in Hcr. rewrite Hcr. reflexivity.
  - assert (Hd : isLF d = false).
    { apply N.eqb_neq. intros ->. apply Hl. left. reflexivity. }
    change ((c :: d :: l) ++ LF :: t) with (c :: d :: (l ++ LF :: t)).
    rewrite splitLines_cons; [|assumption|rewrite Hd; apply andb_false_r].
    change (d :: l ++ LF :: t) with ((d :: l) ++ LF :: t).
    rewrite IH; [reflexivity|assumption|exact Hcr].
Qed.

(** Splitting a newline-joined list of lines gives the lines back. *)
Lemma splitLines_join (lines : list str) :
  lines <> [] ->
  Forall (fun l => ~ In LF l) lines ->
  Spec.innerLinesClean lines ->
  splitLines (join [LF] lines) = lines.
Proof.
  induction lines as [|l lines IH]; intros Hne Hlf Hcr; [congruence|].
  inversion Hlf as [|? ? Hl Hrest]; subst.
  destruct lines as [|m lines].
  - simpl. apply splitLines_line. assumption.
  - destruct Hcr as [Hcr Hin].
    change (join [LF] (l :: m :: lines))
      with (l ++ LF :: join [LF] (m :: lines)).
    rewrite splitLines_line_break by assumption.
    rewrite IH; [reflexivity|discriminate|assumption|assumption].
Qed.

Lemma innerLinesClean_tail (l : str) (lines : list str) :
  Spec.innerLinesClean (l :: lines) -> Spec.innerLinesClean lines.
Proof. destruct lines; simpl; tauto. Qed.

Lemma innerLinesClean_filter (f : str -> bool) (lines : list str) :
  Spec.innerLinesClean lines -> Spec.innerLinesClean (filter f lines).
Proof.
  induction lines as [|l lines IH]; intros H; [exact I|].
  pose proof (IH (innerLinesClean_tail _ _ H)) as Hrest.
  simpl filter. destruct (f l); [|assumption].
  destruct (filter f lines) as [|m kept] eqn:E; [exact I|].
  split; [|assumption].
  destruct lines as [|m' lines']; [discriminate E|].
  destruct H as [Hcr _]. assumption.
Qed.

Lemma filter_filter {A} (f : A -> bool) (l : list A) :
  filter f (filter f l) = filter f l.
Proof.
  induction l as [|a l IH]; simpl; [reflexivity|].
  destruct (f a) eqn:E; simpl; [rewrite E, IH|]; auto.
Qed.

Lemma Forall_filter {A} (P : A -> Prop) (f : A -> bool) (l : list A) :
  Forall P l -> Forall P (filter f l).
Proof.
  induction 1 as [|a l Ha Hl IH]; simpl; [constructor|].
  destruct (f a); [constructor|]; assumption.
Qed.

(** When the first line of a text is empty and another line follows, the
    text starts with a line break. *)
Lemma splitLines_empty_head (d : code) (r : str) (m : str) (lines : list str) :
  splitLines (d :: r) = [] :: m :: lines ->
  isLF d = true \/
  (isCR d = true /\ exists r', r = LF :: r').
Proof.
  cbn [splitLines]. destruct (isLF d) eqn:Hd; [auto|].
  destruct r as [|e r'].
  - simpl. discriminate.
  - destruct (isCR d && isLF e) eqn:Hde.
    + apply andb_true_iff in Hde as [Hcr He]. apply N.eqb_eq in He. subst e.
      intros _. right. eauto.
    + destruct (splitLines (e :: r')); simpl; discriminate.
Qed.

Lemma last_cons_nonempty (c x : code) (l : str) :
  last (c :: x :: l) 0%N = last (x :: l) 0%N.
Proof. reflexivity. Qed.

(** Without the sequence CR CR LF in the text, only the last line can end
    with a carriage return. *)
Lemma splitLines_innerLinesClean (s : str) :
  includes Spec.strayCR s = false -> Spec.innerLinesClean (splitLines s).
Proof.
  functional induction (splitLines s); intros H.
  - exact I.
  - simpl in H. apply orb_false_iff in H as [_ H]. specialize (IHl H).
    destruct (splitLines rest); [exact I|]. split; [reflexivity|assumption].
  - exact I.
  - simpl in H. apply orb_false_iff in H as [_ H].
    apply orb_false_iff in H as [_ H]. specialize (IHl H).
    destruct (splitLines rest'); [exact I|]. split; [reflexivity|assumption].
  - change (includes Spec.strayCR (c :: d :: rest'))
      with (startsWith Spec.strayCR (c :: d :: rest')
            || includes Spec.strayCR (d :: rest')) in H.
    apply orb_false_iff in H as [Hstart H]. specialize (IHl H).
    destruct (splitLines (d :: rest')) as [|l [|m lines]] eqn:E;
      [exact I|exact I|].
    destruct IHl as [Hcr Hin]. simpl consHead. split; [|assumption].
    destruct l as [|x l].
    + unfold Spec.endsWithCR. simpl.
      destruct (splitLines_empty_head _ _ E) as [Hd|[Hd [r' ->]]].
      * rewrite Hd, andb_true_r in e2. assumption.
      * destruct (isCR c) eqn:Hc; [|reflexivity].
        apply N.eqb_eq in Hc, Hd. subst c d. discriminate Hstart.
    + unfold Spec.endsWithCR in *. rewrite last_cons_nonempty. assumption.
Qed.

(** C5 as stated fails on a text with a carriage return left in front of a
    CR LF line break: the first pass keeps the carriage return at the end
    of its line, and the second pass takes it as part of a line break. *)
Lemma stray_carriage_return_filtered_twice :
  let text := lit "a" ++ [CR; CR; LF] ++ lit "b" in
  stripSrtTimecodes text = lit "a" ++ [CR; LF] ++ lit "b" /\
  stripSrtTimecodes (stripSrtTimecodes text) = lit "a" ++ [LF] ++ lit "b" /\
  stripSrtTimecodes (stripSrtTimecodes text) <> stripSrtTimecodes text.
Proof. repeat split. vm_compute. discriminate. Qed.

(** C5 (amended).  For every input text that does not contain the sequence
    CR CR LF (a carriage return left in front of a CR LF line break),
    applying the SRT filter twice yields the same result as applying it
    once. *)
Theorem stripSrtTimecodes_idempotent (text : str) :
  includes Spec.strayCR text = false ->
  stripSrtTimecodes (stripSrtTimecodes text) = stripSrtTimecodes text.
Proof.
  intros H. unfold stripSrtTimecodes at 2 3.
  destruct (truthy text); [|reflexivity]. cbn [negb].
  set (kept := filter keepLine (splitLines text)).
  unfold stripSrtTimecodes.
  destruct (truthy (join [LF] kept)) eqn:Et; cbn [negb].
  - assert (Hne : kept <> []) by (intros E; rewrite E in Et; discriminate Et).
    rewrite splitLines_join.
    + unfold kept. rewrite filter_filter. reflexivity.
    + assumption.
    + apply Forall_filter, splitLines_no_LF.
    + apply innerLinesClean_filter, splitLines_innerLinesClean. assumption.
  - destruct (join [LF] kept); [reflexivity|discriminate Et].
Qed.

Lemma stripSrtTimecodes_idempotent_witness :
  stripSrtTimecodes (stripSrtTimecodes Examples.cue)
  = stripSrtTimecodes Examples.cue.
Proof.
  apply (@stripSrtTimecodes_idempotent Examples.cue).
  reflexivity.
Defined.

(* ================================================================== *)
(** * Further properties of the filter and of the export *)
(* ================================================================== *)

(** ** The filtered text, line by line *)

Lemma splitOn_line (sep : code) (l : str) :
  ~ In sep l -> splitOn sep l = [l].
Proof.
  induction l as [|c l IH]; intros H; [reflexivity|].
  simpl. destruct (N.eqb c sep) eqn:E.
  - apply N.eqb_eq in E. subst. exfalso. apply H. left. reflexivity.
  - rewrite IH; [reflexivity|]. intros Hin. apply H. right. assumption.
Qed.

Lemma splitOn_line_break (sep : code) (l t : str) :
  ~ In sep l -> splitOn sep (l ++ sep :: t) = l :: splitOn sep t.
Proof.
  induction l as [|c l IH]; intros H; simpl.
  - rewrite N.eqb_refl. reflexivity.
  - destruct (N.eqb c sep) eqn:E.
    + apply N.eqb_eq in E. subst. exfalso. apply H. left. reflexivity.
    + rewrite IH; [reflexivity|]. intros Hin. apply H. right. assumption.
Qed.

Lemma splitOn_join (sep : code) (lines : list str) :
  lines <> [] ->
  Forall (fun l => ~ In sep l) lines ->
  splitOn sep (join [sep] lines) = lines.
Proof.
  induction lines as [|l lines IH]; intros Hne H; [congruence|].
  inversion H as [|? ? Hl Hrest]; subst.
  destruct lines as [|m lines].
  - simpl. apply splitOn_line. assumption.
  - change (join [sep] (l :: m :: lines))
      with (l ++ sep :: join [sep] (m :: lines)).
    rewrite splitOn_line_break by assumption.
    rewrite IH; [reflexivity|discriminate|assumption].
Qed.

Lemma splitOn_filtered (text : str) :
  splitOn LF (stripSrtTimecodes text)
  = match filter keepLine (splitLines text) with
    | [] => [[]]
    | l :: kept => l :: kept
    end.
Proof.
  unfold stripSrtTimecodes. destruct (truthy text) eqn:Et; cbn [negb].
  - destruct (filter keepLine (splitLines text)) as [|l kept] eqn:E;
      [reflexivity|].
    rewrite <- E. apply splitOn_join.
    + rewrite E. discriminate.
    + apply Forall_filter, splitLines_no_LF.
  - destruct text; [reflexivity|discriminate Et].
Qed.

(** X1.  Splitting the filtered text at its newlines, as the export does,
    gives back exactly the lines the filter kept, in order; when the filter
    kept nothing, it gives one empty line. *)
Theorem filtered_text_lines (text : str) :
  splitOn LF (stripSrtTimecodes text)
  = match filter keepLine (splitLines text) with
    | [] => [[]]
    | l :: kept => l :: kept
    end.
Proof. apply splitOn_filtered. Qed.

Lemma splitOn_arrow_head (s : str) :
  startsWith arrow s = true ->
  exists l lines, splitOn LF s = l :: lines /\ startsWith arrow l = true.
Proof.
  intros H. apply startsWith_iff in H as [post ->].
  change (arrow ++ post) with (45 :: 45 :: 62 :: post)%N.
  cbn [splitOn]. change (N.eqb 45 LF) with false. change (N.eqb 62 LF) with false.
  cbn iota. destruct (splitOn LF post) as [|p ps]; simpl; eauto.
Qed.

Lemma includes_arrow_splitOn (s : str) :
  includes arrow s = true ->
  exists line, In line (splitOn LF s) /\ includes arrow line = true.
Proof.
  induction s as [|c s IH]; intros H; [discriminate H|].
  change (includes arrow (c :: s))
    with (startsWith arrow (c :: s) || includes arrow s) in H.
  apply orb_true_iff in H as [H|H].
  - destruct (splitOn_arrow_head _ H) as [l [lines [-> Hl]]].
    exists l. split; [left; reflexivity|].
    destruct l; simpl; simpl in Hl; rewrite Hl; reflexivity.
  - destruct (IH H) as [line [Hin Hl]]. simpl.
    destruct (N.eqb c LF).
    + exists line. split; [right; assumption|assumption].
    + destruct (consHead_In c _ _ Hin) as [Hin'|Hin'].
      * exists line. auto.
      * exists (c :: line). split; [assumption|].
        apply includes_cons. assumption.
Qed.

(** X2.  The filtered text never contains the arrow, so the timecode test
    of the translation service never fires on it: a filtered text is
    translated with the plain prompt. *)
Theorem filtered_text_has_no_timecodes (text lang : str) :
  includes arrow (stripSrtTimecodes text) = false /\
  GeminiService.hasSrtTimecodes (stripSrtTimecodes text) = false /\
  GeminiService.translatePrompt (stripSrtTimecodes text) lang
  = GeminiService.plainPrompt (stripSrtTimecodes text) lang.
Proof.
  assert (Ha : includes arrow (stripSrtTimecodes text) = false).
  { destruct (includes arrow (stripSrtTimecodes text)) eqn:E; [|reflexivity].
    apply includes_arrow_splitOn in E as [line [Hin Hl]].
    rewrite splitOn_filtered in Hin.
    destruct (filter keepLine (splitLines text)) as [|l kept] eqn:Ek.
    - destruct Hin as [<-|[]]. discriminate Hl.
    - rewrite <- Ek in Hin. apply filter_In in Hin as [_ Hkeep].
      unfold keepLine, isTimecode in Hkeep. rewrite Hl in Hkeep.
      discriminate Hkeep. }
  assert (Hh : GeminiService.hasSrtTimecodes (stripSrtTimecodes text) = false).
  { destruct (GeminiService.hasSrtTimecodes (stripSrtTimecodes text)) eqn:E;
      [|reflexivity].
    apply hasSrtTimecodes_arrow in E. congruence. }
  repeat split; try assumption.
  unfold GeminiService.translatePrompt. rewrite Hh. reflexivity.
Qed.

(** ** The size of the filtered text *)

Lemma splitLines_nonempty (s : str) : splitLines s <> [].
Proof.
  functional induction (splitLines s); try discriminate;
    match goal with
    | |- consHead _ ?L <> [] => destruct L; discriminate
    end.
Qed.

Lemma join_length_cons (sep : code) (l : str) (lines : list str) :
  lines <> [] ->
  List.length (join [sep] (l :: lines))
  = S (List.length l + List.length (join [sep] lines)).
Proof.
  destruct lines as [|m lines]; [congruence|]. intros _.
  change (join [sep] (l :: m :: lines))
    with (l ++ sep :: join [sep] (m :: lines)).
  rewrite length_app. simpl. lia.
Qed.

Lemma join_consHead (sep c : code) (lines : list str) :
  lines <> [] -> join [sep] (consHead c lines) = c :: join [sep] lines.
Proof.
  destruct lines as [|l lines]; [congruence|]. intros _.
  apply join_cons_piece.
Qed.

Lemma join_splitLines_length (s : str) :
  List.length (join [LF] (splitLines s)) <= List.length s.
Proof.
  functional induction (splitLines s).
  - simpl. lia.
  - rewrite join_length_cons by apply splitLines_nonempty. simpl. lia.
  - simpl. lia.
  - rewrite join_length_cons by apply splitLines_nonempty. simpl. lia.
  - rewrite join_consHead by apply splitLines_nonempty.
    cbn [List.length] in *. lia.
Qed.

Lemma join_filter_length (sep : code) (f : str -> bool) (lines : list str) :
  List.length (join [sep] (filter f lines)) <= List.length (join [sep] lines).
Proof.
  induction lines as [|l lines IH]; [simpl; lia|].
  destruct lines as [|m lines].
  - simpl. destruct (f l); simpl; lia.
  - rewrite (join_length_cons sep l) by discriminate.
    remember (m :: lines) as rest eqn:Hrest.
    simpl filter. destruct (f l).
    + destruct (filter f rest) as [|k kept].
      * change (join [sep] [l]) with l. lia.
      * rewrite join_length_cons by discriminate. lia.
    + lia.
Qed.

(** X3.  The filter never makes a text longer. *)
Theorem filtered_text_not_longer (text : str) :
  List.length (stripSrtTimecodes text) <= List.length text.
Proof.
  unfold stripSrtTimecodes. destruct (truthy text); cbn [negb].
  - etransitivity; [apply join_filter_length|apply join_splitLines_length].
  - simpl. lia.
Qed.

(** ** Texts the filter leaves alone *)

Lemma join_splitLines (s : str) :
  includes [CR; LF] s = false -> join [LF] (splitLines s) = s.
Proof.
  functional induction (splitLines s); intros H.
  - reflexivity.
  - apply N.eqb_eq in e0. subst c.
    simpl in H. specialize (IHl H).
    destruct (splitLines rest) as [|l lines] eqn:E.
    + exfalso. apply (splitLines_nonempty rest). assumption.
    + change (join [LF] ([] :: l :: lines)) with (LF :: join [LF] (l :: lines)).
      rewrite IHl. reflexivity.
  - reflexivity.
  - apply andb_true_iff in e2 as [Hc Hd]. apply N.eqb_eq in Hc, Hd.
    subst c d. discriminate H.
  - change (includes [CR; LF] (c :: d :: rest'))
      with (startsWith [CR; LF] (c :: d :: rest')
            || includes [CR; LF] (d :: rest')) in H.
    apply orb_false_iff in H as [_ H].
    rewrite join_consHead by apply splitLines_nonempty.
    rewrite IHl by assumption. reflexivity.
Qed.

Lemma filter_all {A} (f : A -> bool) (l : list A) :
  forallb f l = true -> filter f l = l.
Proof.
  induction l as [|a l IH]; simpl; [reflexivity|].
  intros H. apply andb_true_iff in H as [Ha Hl]. rewrite Ha, IH; auto.
Qed.

(** X4.  A text that has no line for the filter to remove and no CR LF
    line break comes out of the filter unchanged. *)
Theorem clean_text_unchanged (text : str) :
  forallb keepLine (splitLines text) = true ->
  includes [CR; LF] text = false ->
  stripSrtTimecodes text = text.
Proof.
  intros Hk Hcr. unfold stripSrtTimecodes.
  destruct (truthy text) eqn:Et; cbn [negb].
  - rewrite filter_all by assumption. apply join_splitLines. assumption.
  - destruct text; [reflexivity|discriminate Et].
Qed.

Lemma clean_text_unchanged_witness :
  stripSrtTimecodes (lit "Speaker 1: hola" ++ [LF] ++ lit "Speaker 2: adios")
  = lit "Speaker 1: hola" ++ [LF] ++ lit "Speaker 2: adios".
Proof.
  apply (@clean_text_unchanged
           (lit "Speaker 1: hola" ++ [LF] ++ lit "Speaker 2: adios")).
  - reflexivity.
  - reflexivity.
Defined.

(** X5.  In the exported document, no paragraph of the transcription and
    translation sections contains the arrow, is a cue counter or is blank,
    but for the empty paragraph that stands for a section with no line
    left. *)
Theorem export_text_paragraphs (fileName transcript translation line : str) :
  In (DocxGenerator.TextLine line)
     (DocxGenerator.frontMatter fileName transcript translation) ->
  line = [] \/ keepLine line = true.
Proof.
  assert (G : forall text,
             In line (splitOn LF (stripSrtTimecodes text)) ->
             line = [] \/ keepLine line = true).
  { intros text Hin. rewrite splitOn_filtered in Hin.
    destruct (filter keepLine (splitLines text)) as [|l kept] eqn:E.
    - destruct Hin as [<-|[]]. left. reflexivity.
    - rewrite <- E in Hin. apply filter_In in Hin as [_ Hk]. right. exact Hk. }
  unfold DocxGenerator.frontMatter. intros H.
  repeat (apply in_app_or in H as [H|H]);
    try (simpl in H; intuition discriminate).
  - apply in_map_iff in H as [l [Hl Hin]]. injection Hl as ->.
    apply (G transcript). assumption.
  - apply in_map_iff in H as [l [Hl Hin]]. injection Hl as ->.
    apply (G translation). assumption.
Qed.

Lemma export_text_paragraphs_witness :
  lit "Speaker 1: hola" = [] \/ keepLine (lit "Speaker 1: hola") = true.
Proof.
  apply (@export_text_paragraphs (lit "interview.mp3")
           (lit "Speaker 1: hello") Examples.cue (lit "Speaker 1: hola")).
  vm_compute. intuition.
Defined.

(** ** The names of the downloaded files *)

Lemma lastIndexOf_split (sep : code) (name : str) (i : nat) :
  lastIndexOf sep name = Some i ->
  name = firstn i name ++ sep :: skipn (S i) name
  /\ ~ In sep (skipn (S i) name).
Proof.
  revert i. induction name as [|c name IH]; simpl; intros i; [discriminate|].
  destruct (lastIndexOf sep name) as [j|] eqn:E.
  - intros H. injection H as <-. destruct (IH j eq_refl) as [Hn Hx].
    split; [|assumption]. simpl. f_equal. assumption.
  - destruct (N.eqb c sep) eqn:Ec; [|discriminate].
    intros H. injection H as <-. apply N.eqb_eq in Ec. subst c.
    split; [reflexivity|]. simpl.
    clear IH. induction name as [|d name IH]; simpl in *; [tauto|].
    destruct (lastIndexOf sep name); [discriminate|].
    destruct (N.eqb d sep) eqn:Ed; [discriminate|].
    apply N.eqb_neq in Ed. intros [H|H]; [congruence|]. apply IH; auto.
Qed.

Lemma formatFileName_cases (name : str) :
  DocxGenerator.formatFileName name
  = match lastIndexOf DOT name with
    | Some i => firstn i name
    | None => []
    end ++ lit "_processed.docx".
Proof.
  destruct (lastIndexOf DOT name) as [i|] eqn:E.
  - apply formatFileName_with_extension. assumption.
  - unfold DocxGenerator.formatFileName.
    rewrite (splitOn_no_separator _ _ E). reflexivity.
Qed.

(** X6.  The name of the exported document is the source name up to its last
    dot, followed by [_processed.docx]; a source name without a dot
    contributes nothing, and the export is named [_processed.docx]. *)
Theorem export_file_name (name : str) :
  DocxGenerator.formatFileName name
  = match lastIndexOf DOT name with
    | Some i => firstn i name
    | None => []
    end ++ lit "_processed.docx".
Proof. apply formatFileName_cases. Qed.

(** X7.  The base name of an SRT download is never empty for a file that has
    a name; it is the whole name, or the name without its last dot and the
    dot-free extension after it. *)
Theorem srt_base_name (name : str) :
  name <> [] ->
  baseName name <> [] /\
  (baseName name = name \/
   exists ext, name = baseName name ++ DOT :: ext /\ ~ In DOT ext).
Proof.
  intros Hne. unfold baseName.
  destruct (lastIndexOf DOT name) as [i|] eqn:E.
  - destruct (lastIndexOf_split _ _ E) as [Hn Hx].
    destruct (firstn i name) as [|c stem] eqn:Ef; simpl.
    + split; [assumption|]. left. reflexivity.
    + split; [discriminate|]. right. exists (skipn (S i) name).
      split; assumption.
  - simpl. split; [assumption|]. left. reflexivity.
Qed.

Lemma srt_base_name_witness :
  baseName (lit "interview.mp3") <> [] /\
  (baseName (lit "interview.mp3") = lit "interview.mp3" \/
   exists ext, lit "interview.mp3" = baseName (lit "interview.mp3") ++ DOT :: ext
               /\ ~ In DOT ext).
Proof.
  apply (@srt_base_name (lit "interview.mp3")).
  vm_compute. discriminate.
Defined.

(** X8.  When the last dot of the source name is not its first unit, the
    exported document and the SRT downloads are named after the same stem:
    the name up to that dot. *)
Theorem downloads_share_stem (name kind : str) (i : nat) :
  lastIndexOf DOT name = Some (S i) ->
  DocxGenerator.formatFileName name
  = baseName name ++ lit "_processed.docx" /\
  srtDownloadName name kind
  = baseName name ++ lit "_" ++ kind ++ lit ".srt" /\
  baseName name = firstn (S i) name.
Proof.
  intros E. rewrite formatFileName_cases. unfold srtDownloadName, baseName.
  rewrite E.
  destruct name as [|c name]; [discriminate E|]. simpl. auto.
Qed.

Lemma downloads_share_stem_witness :
  DocxGenerator.formatFileName (lit "interview.mp3")
  = baseName (lit "interview.mp3") ++ lit "_processed.docx" /\
  srtDownloadName (lit "interview.mp3") (lit "transcript")
  = baseName (lit "interview.mp3") ++ lit "_" ++ lit "transcript" ++ lit ".srt" /\
  baseName (lit "interview.mp3") = firstn 9 (lit "interview.mp3").
Proof.
  apply (@downloads_share_stem (lit "interview.mp3") (lit "transcript") 8).
  reflexivity.
Defined.

(** ** The file queue, selection by selection *)

Lemma sameFile_refl (f : File) : App.sameFile f f = true.
Proof. apply sameFile_triple. reflexivity. Qed.

Lemma handleFilesSelected_triples
      (files selectedFiles : list File) (t : str * N * N) :
  In t (map App.triple (App.handleFilesSelected files selectedFiles))
  <-> In t (map App.triple files) \/ In t (map App.triple selectedFiles).
Proof.
  unfold App.handleFilesSelected, App.handleFilesSelectedOn.
  rewrite map_app, in_app_iff. split.
  - intros [H|H]; [auto|]. right.
    apply in_map_iff in H as [f [<- Hin]]. apply filter_In in Hin as [Hin _].
    apply in_map. assumption.
  - intros [H|H]; [auto|].
    apply in_map_iff in H as [f [<- Hin]].
    destruct (existsb (fun ef => App.sameFile ef f) files) eqn:E.
    + left. apply queued_triple. assumption.
    + right. apply in_map. apply filter_In. split; [assumption|].
      rewrite E. reflexivity.
Qed.

(** X9.  After a selection the queue holds the triples it held before and
    the triples of the selected files, and no other. *)
Theorem queue_triples_after_selection
        (files selectedFiles : list File) (t : str * N * N) :
  In t (map App.triple (App.handleFilesSelected files selectedFiles))
  <-> In t (map App.triple files) \/ In t (map App.triple selectedFiles).
Proof. apply handleFilesSelected_triples. Qed.

(** X10.  Selecting the same files again, once the first selection is in
    the queue, changes nothing. *)
Theorem reselection_changes_nothing (files selectedFiles : list File) :
  App.handleFilesSelected (App.handleFilesSelected files selectedFiles)
                          selectedFiles
  = App.handleFilesSelected files selectedFiles.
Proof.
  unfold App.handleFilesSelected at 1. unfold App.handleFilesSelectedOn.
  rewrite filter_none; [apply app_nil_r|].
  intros f Hin. apply negb_false_iff. apply queued_triple.
  apply handleFilesSelected_triples. right. apply in_map. assumption.
Qed.

(** ** The speaker groups, whatever the labels *)

From Stdlib Require Import Permutation Sorted.

Lemma groupStep_thrown (quotes : list ScriptQuote) :
  fold_left DocxGenerator.groupStep quotes None = None.
Proof. induction quotes as [|q quotes IH]; simpl; auto. Qed.

(** The accumulator of the reduce: lost when a label names an inherited
    property, and otherwise the groups in order of first appearance. *)
Lemma quotesBySpeaker_cases (quotes : list ScriptQuote) :
  DocxGenerator.quotesBySpeaker quotes
  = if existsb Labels.inheritedLabel quotes then None
    else Some (Spec.groupedBySpeaker quotes).
Proof.
  induction quotes as [|q quotes IH] using rev_ind; [reflexivity|].
  unfold DocxGenerator.quotesBySpeaker in *.
  rewrite fold_left_app, IH, existsb_app. cbn [fold_left existsb].
  rewrite orb_false_r.
  destruct (existsb Labels.inheritedLabel quotes) eqn:E; [reflexivity|].
  cbn [orb]. unfold Labels.inheritedLabel.
  destruct (inherited (speaker q)) eqn:Ei.
  - unfold DocxGenerator.groupStep, Spec.groupedBySpeaker.
    unfold Spec.groupOf at 1.
    rewrite lookup_groups, existsb_firstAppearances.
    destruct (existsb (str_eqb (speaker q)) (map speaker quotes)) eqn:Es.
    + apply (proj1 (existsb_str_In _ _)) in Es.
      apply in_map_iff in Es as [q' [Hq' Hin]].
      assert (Hx : existsb Labels.inheritedLabel quotes = true).
      { apply existsb_exists. exists q'. split; [assumption|].
        unfold Labels.inheritedLabel. rewrite Hq'. assumption. }
      congruence.
    + rewrite Ei. reflexivity.
  - apply groupStep_grouped. assumption.
Qed.

(** X11.  Grouping the quotes fails, and with it the export, exactly when
    some speaker label is the name of a property that every object inherits
    (such as [constructor] or [toString]). *)
Theorem grouping_fails_on_inherited_label (quotes : list ScriptQuote) :
  (DocxGenerator.speakerGroups quotes = None
   <-> existsb Labels.inheritedLabel quotes = true) /\
  (forall fileName transcript translation,
      DocxGenerator.generateDocx fileName transcript translation quotes = None
      <-> existsb Labels.inheritedLabel quotes = true).
Proof.
  assert (G : DocxGenerator.speakerGroups quotes = None
              <-> existsb Labels.inheritedLabel quotes = true).
  { unfold DocxGenerator.speakerGroups. rewrite quotesBySpeaker_cases.
    destruct (existsb Labels.inheritedLabel quotes); simpl;
      split; congruence. }
  split; [exact G|].
  intros fileName transcript translation. rewrite <- G.
  unfold DocxGenerator.generateDocx.
  destruct (DocxGenerator.speakerGroups quotes); split; congruence.
Qed.

Lemma insertByIndex_Permutation {V} (e : N * (str * V)) (l : list (N * (str * V))) :
  Permutation (insertByIndex e l) (e :: l).
Proof.
  induction l as [|e' l IH]; simpl; [reflexivity|].
  destruct (fst e <? fst e')%N; [reflexivity|].
  rewrite IH. apply perm_swap.
Qed.

Lemma sortByIndex_Permutation {V} (l : list (N * (str * V))) :
  Permutation (sortByIndex l) l.
Proof.
  induction l as [|e l IH]; simpl; [reflexivity|].
  rewrite insertByIndex_Permutation. apply perm_skip. assumption.
Qed.

Lemma entries_Permutation {V} (o : object V) : Permutation (entries o) o.
Proof.
  unfold entries. rewrite sortByIndex_Permutation. unfold named.
  induction o as [|[k v] o IH]; simpl; [reflexivity|].
  destruct (arrayIndex k); simpl.
  - apply perm_skip. assumption.
  - rewrite <- Permutation_middle. apply perm_skip. assumption.
Qed.

Lemma filter_either {A} (f g : A -> bool) (l : list A) :
  (forall a, In a l -> f a = true -> g a = false) ->
  Permutation (filter f l ++ filter g l) (filter (fun a => f a || g a) l).
Proof.
  induction l as [|a l IH]; intros H; simpl; [reflexivity|].
  assert (IH' := IH (fun b Hb => H b (or_intror Hb))).
  destruct (f a) eqn:Ef; simpl.
  - rewrite (H a (or_introl eq_refl) Ef). apply perm_skip. assumption.
  - destruct (g a); [|assumption].
    rewrite <- Permutation_middle. apply perm_skip. assumption.
Qed.

Lemma groups_of_labels (quotes : list ScriptQuote) (labels : list str) :
  NoDup labels ->
  Permutation
    (flat_map (fun sp => snd (Spec.groupOf quotes sp)) labels)
    (filter (fun q => existsb (str_eqb (speaker q)) labels) quotes).
Proof.
  induction 1 as [|sp labels Hnot Hnd IH]; simpl.
  - rewrite filter_none; [reflexivity|auto].
  - rewrite IH.
    rewrite filter_either.
    + erewrite filter_ext; [reflexivity|]. intros q. simpl.
      rewrite (str_eqb_sym (speaker q) sp). reflexivity.
    + intros q _ Hq. apply str_eqb_eq in Hq.
      destruct (existsb (str_eqb (speaker q)) labels) eqn:E; [|reflexivity].
      apply (proj1 (existsb_str_In _ _)) in E. congruence.
Qed.

Lemma grouped_flat (quotes : list ScriptQuote) :
  Permutation (flat_map snd (Spec.groupedBySpeaker quotes)) quotes.
Proof.
  unfold Spec.groupedBySpeaker. rewrite flat_map_concat_map, map_map.
  rewrite <- flat_map_concat_map.
  rewrite groups_of_labels by apply firstAppearances_NoDup.
  rewrite filter_all; [reflexivity|].
  apply forallb_forall. intros q Hq. rewrite existsb_firstAppearances.
  apply existsb_str_In. apply in_map. assumption.
Qed.

Lemma speakerGroups_entries (quotes : list ScriptQuote)
      (groups : list (str * list ScriptQuote)) :
  DocxGenerator.speakerGroups quotes = Some groups ->
  groups = entries (Spec.groupedBySpeaker quotes).
Proof.
  unfold DocxGenerator.speakerGroups. rewrite quotesBySpeaker_cases.
  destruct (existsb Labels.inheritedLabel quotes); simpl; congruence.
Qed.

(** X12.  Grouping loses no quote and doubles none: the quotes of all the
    groups together are the extracted quotes, each once; and one block
    quotation is exported for each. *)
Theorem grouping_keeps_every_quote (quotes : list ScriptQuote)
        (groups : list (str * list ScriptQuote)) :
  DocxGenerator.speakerGroups quotes = Some groups ->
  Permutation (flat_map snd groups) quotes /\
  List.length (DocxGenerator.quoteSections groups)
  = List.length groups + List.length quotes.
Proof.
  intros H. apply speakerGroups_entries in H. subst groups.
  assert (P : Permutation (flat_map snd (entries (Spec.groupedBySpeaker quotes)))
                          quotes).
  { rewrite entries_Permutation. apply grouped_flat. }
  split; [exact P|].
  rewrite <- (Permutation_length P).
  generalize (entries (Spec.groupedBySpeaker quotes)). intros groups.
  unfold DocxGenerator.quoteSections.
  induction groups as [|g groups IH]; [reflexivity|].
  cbn [flat_map]. rewrite !length_app. cbn [List.length].
  rewrite length_map, IH. lia.
Qed.

Lemma grouping_keeps_every_quote_witness :
  Permutation
    (flat_map snd
       [(lit "1", [mkQuote (lit "1") (lit "Thank you.")]);
        (lit "Host", [mkQuote (lit "Host") (lit "Welcome.")])])
    [mkQuote (lit "Host") (lit "Welcome.");
     mkQuote (lit "1") (lit "Thank you.")] /\
  List.length
    (DocxGenerator.quoteSections
       [(lit "1", [mkQuote (lit "1") (lit "Thank you.")]);
        (lit "Host", [mkQuote (lit "Host") (lit "Welcome.")])])
  = 2 + 2.
Proof.
  apply (@grouping_keeps_every_quote
           [mkQuote (lit "Host") (lit "Welcome.");
            mkQuote (lit "1") (lit "Thank you.")]).
  reflexivity.
Defined.

(** X13.  Every group is headed by a speaker of its own, no speaker heads
    two groups, and a group holds exactly the quotes of its speaker, in
    extraction order; no group is empty. *)
Theorem groups_by_speaker (quotes : list ScriptQuote)
        (groups : list (str * list ScriptQuote)) :
  DocxGenerator.speakerGroups quotes = Some groups ->
  NoDup (map fst groups) /\
  Forall (fun g =>
            snd g = filter (fun q => str_eqb (speaker q) (fst g)) quotes
            /\ snd g <> []) groups /\
  (forall q, In q quotes -> In (speaker q) (map fst groups)).
Proof.
  intros H. apply speakerGroups_entries in H. subst groups.
  pose proof (entries_Permutation (Spec.groupedBySpeaker quotes)) as P.
  assert (Hk : map fst (Spec.groupedBySpeaker quotes)
               = Spec.firstAppearances (map speaker quotes)).
  { unfold Spec.groupedBySpeaker. rewrite map_map. simpl. apply map_id. }
  repeat split.
  - apply (Permutation_NoDup (l := map fst (Spec.groupedBySpeaker quotes))).
    + apply Permutation_map. symmetry. assumption.
    + rewrite Hk. apply firstAppearances_NoDup.
  - rewrite P.
    apply Forall_forall. intros g Hg. unfold Spec.groupedBySpeaker in Hg.
    apply in_map_iff in Hg as [sp [<- Hsp]]. simpl. split; [reflexivity|].
    apply (proj1 (firstAppearances_In _ _)) in Hsp.
    apply in_map_iff in Hsp as [q [Hq Hin]].
    intros E. assert (Hf : In q (filter (fun q => str_eqb (speaker q) sp) quotes)).
    { apply filter_In. split; [assumption|]. apply str_eqb_eq. assumption. }
    rewrite E in Hf. exact Hf.
  - intros q Hq.
    apply (Permutation_in (l := map fst (Spec.groupedBySpeaker quotes))).
    + apply Permutation_map. symmetry. assumption.
    + rewrite Hk. apply firstAppearances_In. apply in_map. assumption.
Qed.

Lemma groups_by_speaker_witness :
  NoDup (map fst [(lit "1", [mkQuote (lit "1") (lit "Thank you.")]);
                  (lit "Host", [mkQuote (lit "Host") (lit "Welcome.")])]).
Proof.
  apply (@groups_by_speaker
           [mkQuote (lit "Host") (lit "Welcome.");
            mkQuote (lit "1") (lit "Thank you.")]
           [(lit "1", [mkQuote (lit "1") (lit "Thank you.")]);
            (lit "Host", [mkQuote (lit "Host") (lit "Welcome.")])]).
  reflexivity.
Defined.

Lemma insertByIndex_HdRel {V} (a e : N * (str * V)) (l : list (N * (str * V))) :
  (fst a <= fst e)%N ->
  HdRel (fun x y => (fst x <= fst y)%N) a l ->
  HdRel (fun x y => (fst x <= fst y)%N) a (insertByIndex e l).
Proof.
  intros Hae H. destruct l as [|e' l]; simpl.
  - constructor. assumption.
  - destruct (fst e <? fst e')%N; constructor; [assumption|].
    inversion H; assumption.
Qed.

Lemma insertByIndex_Sorted {V} (e : N * (str * V)) (l : list (N * (str * V))) :
  Sorted (fun x y => (fst x <= fst y)%N) l ->
  Sorted (fun x y => (fst x <= fst y)%N) (insertByIndex e l).
Proof.
  induction 1 as [|e' l Hs IH Hd]; simpl.
  - repeat constructor.
  - destruct (fst e <? fst e')%N eqn:E.
    + apply N.ltb_lt in E. repeat constructor; try assumption. lia.
    + apply N.ltb_ge in E. constructor; [assumption|].
      apply insertByIndex_HdRel; assumption.
Qed.

Lemma sortByIndex_Sorted {V} (l : list (N * (str * V))) :
  Sorted (fun x y => (fst x <= fst y)%N) (sortByIndex l).
Proof.
  induction l as [|e l IH]; simpl; [constructor|].
  apply insertByIndex_Sorted. assumption.
Qed.

Lemma indexed_labels {V} (o : object V) :
  Forall (fun e => arrayIndex (fst (snd e)) = Some (fst e)) (indexed o).
Proof.
  induction o as [|[k v] o IH]; simpl; [constructor|].
  destruct (arrayIndex k) eqn:E; [|assumption].
  constructor; assumption.
Qed.

Lemma index_groups_Sorted (l : list (N * (str * list ScriptQuote))) :
  Forall (fun e => arrayIndex (fst (snd e)) = Some (fst e)) l ->
  Sorted (fun x y => (fst x <= fst y)%N) l ->
  Sorted (fun a b => (Labels.labelIndex a <= Labels.labelIndex b)%N)
         (map snd l).
Proof.
  intros Hl Hs. induction Hs as [|e l Hs IH Hd]; simpl; [constructor|].
  inversion Hl as [|? ? He Hrest]; subst.
  constructor; [apply IH; assumption|].
  destruct Hd as [|e' l' Hee']; simpl; constructor.
  inversion Hrest as [|? ? He' _]; subst.
  unfold Labels.labelIndex. rewrite He, He'. assumption.
Qed.

Lemma named_labels (quotes : list ScriptQuote) (labels : list str) :
  map fst (named (map (Spec.groupOf quotes) labels))
  = filter (fun sp => match arrayIndex sp with
                      | Some _ => false | None => true end) labels.
Proof.
  unfold named. induction labels as [|sp labels IH]; simpl; [reflexivity|].
  destruct (arrayIndex sp); simpl; [|f_equal]; assumption.
Qed.

(** X14.  The order of the speaker groups, whatever the labels: first the
    groups whose label is an array index, by ascending index; then the
    other groups, in the order of their speaker's first appearance in the
    quote list. *)
Theorem speaker_group_order (quotes : list ScriptQuote)
        (groups : list (str * list ScriptQuote)) :
  DocxGenerator.speakerGroups quotes = Some groups ->
  exists indexGroups namedGroups,
    groups = indexGroups ++ namedGroups /\
    forallb Labels.indexLabelled indexGroups = true /\
    Sorted (fun a b => (Labels.labelIndex a <= Labels.labelIndex b)%N)
           indexGroups /\
    map fst namedGroups
    = filter (fun sp => match arrayIndex sp with
                        | Some _ => false | None => true end)
             (Spec.firstAppearances (map speaker quotes)).
Proof.
  intros H. apply speakerGroups_entries in H. subst groups.
  exists (map snd (sortByIndex (indexed (Spec.groupedBySpeaker quotes)))),
         (named (Spec.groupedBySpeaker quotes)).
  assert (Hl : Forall (fun e : N * (str * list ScriptQuote) =>
                         arrayIndex (fst (snd e)) = Some (fst e))
                      (sortByIndex (indexed (Spec.groupedBySpeaker quotes)))).
  { rewrite sortByIndex_Permutation. apply indexed_labels. }
  repeat split.
  - apply forallb_forall. intros g Hg.
    apply in_map_iff in Hg as [e [<- He]].
    rewrite Forall_forall in Hl. unfold Labels.indexLabelled.
    rewrite (Hl e He). reflexivity.
  - apply index_groups_Sorted; [assumption|apply sortByIndex_Sorted].
  - apply named_labels.
Qed.

Lemma speaker_group_order_witness :
  exists indexGroups namedGroups,
    [(lit "1", [mkQuote (lit "1") (lit "Thank you.")]);
     (lit "Host", [mkQuote (lit "Host") (lit "Welcome.")])]
    = indexGroups ++ namedGroups /\
    forallb Labels.indexLabelled indexGroups = true /\
    Sorted (fun a b => (Labels.labelIndex a <= Labels.labelIndex b)%N)
           indexGroups /\
    map fst namedGroups
    = filter (fun sp => match arrayIndex sp with
                        | Some _ => false | None => true end)
             (Spec.firstAppearances
                (map speaker [mkQuote (lit "Host") (lit "Welcome.");
                              mkQuote (lit "1") (lit "Thank you.")])).
Proof.
  apply (@speaker_group_order
           [mkQuote (lit "Host") (lit "Welcome.");
            mkQuote (lit "1") (lit "Thank you.")]).
  reflexivity.
Defined.

(* ================================================================== *)
(** * Further properties of the processing pipeline *)
(* ================================================================== *)

(** ** Transcription *)

(** X15.  Transcription makes one call, for the job's file and the timecode
    option.  When the call succeeds, the result becomes the transcript and
    the status [COMPLETED]; when it fails, the status becomes [ERROR] and
    [error] holds the message.  Either way the translation, the script and
    the selected language are left as they were, and a success does not
    clear an earlier error. *)
Theorem transcription_outcome (svc : Services) (p : Props) (s : State) :
  let r := run svc (processTranscription p) s in
  snd r = [CallTranscribe (file p) (addTimecodes p)] /\
  translation (fst r) = translation s /\
  script (fst r) = script s /\
  targetLanguage (fst r) = targetLanguage s /\
  match transcribeAudio svc (file p) (addTimecodes p) with
  | Ok res =>
      status (fst r) = COMPLETED /\ transcript (fst r) = Some res
      /\ error (fst r) = error s
  | Throw e =>
      status (fst r) = ERROR /\ transcript (fst r) = transcript s
      /\ error (fst r) = Some (messageOr (lit "An unknown error occurred.") e)
  end.
Proof.
  unfold processTranscription. cbn [run].
  destruct (transcribeAudio svc (file p) (addTimecodes p)); cbn;
    repeat split.
Qed.

(** X16.  The card of a freshly mounted job: a spinner while the
    transcription call is out; after a failure, the failure panel with the
    message; after a success, the content view, where the translate
    section is offered exactly when the transcript is not the empty
    text. *)
Theorem fresh_job_card (svc : Services) (p : Props) (lang : Language) :
  renderContent p (pending (processTranscription p) (initialState lang))
  = Spinner /\
  let s' := fst (run svc (processTranscription p) (initialState lang)) in
  match transcribeAudio svc (file p) (addTimecodes p) with
  | Ok res =>
      Card.showsTranslate (renderContent p s') = truthy res /\
      Card.showsGenerate (renderContent p s') = false /\
      Card.showsError (renderContent p s') = false
  | Throw e =>
      renderContent p s'
      = TranscriptionFailed
          (Some (messageOr (lit "An unknown error occurred.") e))
  end.
Proof.
  split; [reflexivity|].
  unfold processTranscription. cbn [run].
  destruct (transcribeAudio svc (file p) (addTimecodes p)) as [res|e]; cbn.
  - repeat split.
  - reflexivity.
Qed.

(** ** The sections of the card *)

(** X17.  What the card offers, with the status comparisons worked out.
    The translate section is shown exactly when the job is not transcribing
    and has a non-empty transcript.  The generate section is shown exactly
    when the status is [TRANSLATED], not later, and the translation is not
    empty.  The error banner is shown exactly when there is a non-empty
    error message, the status is neither [COMPLETED] nor [TRANSCRIBING],
    and, in the status [ERROR], the transcript is not empty. *)
Theorem card_sections (p : Props) (s : State) :
  (Card.showsTranslate (renderContent p s) = true
   <-> status s <> TRANSCRIBING /\ truthyOpt (transcript s) = true) /\
  (Card.showsGenerate (renderContent p s) = true
   <-> status s = TRANSLATED /\ truthyOpt (translation s) = true) /\
  (Card.showsError (renderContent p s) = true
   <-> truthyOpt (error s) = true /\ status s <> COMPLETED
       /\ status s <> TRANSCRIBING
       /\ (status s = ERROR -> truthyOpt (transcript s) = true)).
Proof.
  unfold renderContent.
  destruct (status s) eqn:Es;
    destruct (truthyOpt (transcript s)) eqn:Et;
    destruct (truthyOpt (translation s)) eqn:El;
    destruct (truthyOpt (error s)) eqn:Ee;
    cbn; repeat split; intros; try discriminate; try congruence;
    try tauto;
    repeat match goal with
           | H : _ /\ _ |- _ => destruct H
           end; congruence.
Qed.

(** ** The translate action, further *)

(** X18.  A translation that succeeds clears an earlier error, turns the
    busy flag off, and leaves the script and the selected language as they
    were: quotes extracted from an earlier translation stay on the card. *)
Theorem translate_success_rest (svc : Services) (s : State) (T res : str) :
  transcript s = Some T ->
  T <> [] ->
  translateText svc T (langName (targetLanguage s)) = Ok res ->
  let s' := fst (run svc (handleTranslate s) s) in
  error s' = None /\ isTranslating s' = false /\
  script s' = script s /\ targetLanguage s' = targetLanguage s /\
  isGenerating s' = isGenerating s.
Proof.
  intros HT Hne Hr. unfold handleTranslate.
  rewrite HT, (truthy_nonempty Hne). cbn [negb run]. rewrite Hr. cbn.
  repeat split.
Qed.

Lemma translate_success_rest_witness :
  let s' := fst (run Examples.echo (handleTranslate Examples.completedHello)
                     Examples.completedHello) in
  error s' = None /\ isTranslating s' = false /\
  script s' = None /\ targetLanguage s' = Examples.spanish /\
  isGenerating s' = false.
Proof.
  apply (@translate_success_rest Examples.echo Examples.completedHello
           (lit "Speaker 1: hello") (lit "Speaker 1: hola")).
  - reflexivity.
  - vm_compute. discriminate.
  - reflexivity.
Defined.

(** X19.  When the translation of a job in the [COMPLETED] state fails, the
    message is stored and the card does not show it: the error banner
    stays hidden, and so does the failure panel. *)
Theorem translate_failure_not_shown (svc : Services) (p : Props) (s : State)
        (T : str) (e : thrown) :
  status s = COMPLETED ->
  transcript s = Some T ->
  T <> [] ->
  translateText svc T (langName (targetLanguage s)) = Throw e ->
  let s' := fst (run svc (handleTranslate s) s) in
  error s' = Some (messageOr (lit "Translation failed.") e) /\
  Card.showsError (renderContent p s') = false /\
  Card.showsTranslate (renderContent p s') = true.
Proof.
  intros Hs HT Hne Hr. unfold handleTranslate.
  rewrite HT, (truthy_nonempty Hne). cbn [negb run]. rewrite Hr. cbn.
  unfold renderContent. cbn. rewrite Hs, HT. cbn.
  rewrite (truthy_nonempty Hne). repeat split. apply andb_false_r.
Qed.

Lemma translate_failure_not_shown_witness :
  let s' := fst (run Examples.failing (handleTranslate Examples.completedHello)
                     Examples.completedHello) in
  error s' = Some (lit "Failed to translate text.") /\
  Card.showsError (renderContent Examples.withTimecodes s') = false /\
  Card.showsTranslate (renderContent Examples.withTimecodes s') = true.
Proof.
  apply (@translate_failure_not_shown Examples.failing Examples.withTimecodes
           Examples.completedHello (lit "Speaker 1: hello")
           (ErrorObj (lit "Failed to translate text."))).
  - reflexivity.
  - reflexivity.
  - vm_compute. discriminate.
  - reflexivity.
Defined.

(** ** The quote-extraction action, further *)

Lemma orEmpty_id (t : str) : orEmpty t = t.
Proof. destruct t; reflexivity. Qed.

(** The text the action sends for a non-empty translation. *)
Lemma textForScript_sent (svc : Services) (p : Props) (s : State) (t : str) :
  translation s = Some t ->
  t <> [] ->
  run svc (handleGenerateScript p s) s
  = let text := if addTimecodes p then stripSrtTimecodes t else t in
    let s1 := setError None (setIsGenerating true s) in
    (setIsGenerating false
       match generateScript svc text with
       | Ok res => setStatus SUMMARIZED (setScript (Some res) s1)
       | Throw e =>
           setError (Some (messageOr (lit "Script generation failed.") e)) s1
       end,
     [CallGenerate text]).
Proof.
  intros Ht Hne. unfold handleGenerateScript.
  rewrite Ht, (truthy_nonempty Hne). cbn [negb andb run].
  rewrite andb_true_r, orEmpty_id.
  destruct (addTimecodes p); cbn zeta;
    match goal with
    | |- context [generateScript svc ?x] => destruct (generateScript svc x)
    end; reflexivity.
Qed.

(** X20.  For every job, if the extraction call made by the
    quote-extraction action fails, then after the action the transcript,
    the translation, an earlier script and the status are what they were
    before it, and [error] holds a message. *)
Theorem extract_failure_keeps_job (svc : Services) (p : Props) (s : State)
        (text : str) (e : thrown) :
  In (CallGenerate text) (snd (run svc (handleGenerateScript p s) s)) ->
  generateScript svc text = Throw e ->
  let s' := fst (run svc (handleGenerateScript p s) s) in
  transcript s' = transcript s /\
  translation s' = translation s /\
  script s' = script s /\
  status s' = status s /\
  error s' = Some (messageOr (lit "Script generation failed.") e).
Proof.
  destruct (translation s) as [t|] eqn:Ht.
  - destruct t as [|c t].
    + unfold handleGenerateScript. rewrite Ht. cbn. intros [].
    + rewrite (@textForScript_sent svc p s (c :: t) Ht) by discriminate.
      cbn zeta. cbn [fst snd]. intros [Hc|[]] Hr. injection Hc as Hc.
      rewrite Hc, Hr. cbn. rewrite Ht. repeat split.
  - unfold handleGenerateScript. rewrite Ht. cbn. intros [].
Qed.

Lemma extract_failure_keeps_job_witness :
  let s' := fst (run Examples.failing
                     (handleGenerateScript Examples.withTimecodes
                                           Examples.translatedCue)
                     Examples.translatedCue) in
  transcript s' = Some (lit "Speaker 1: hello") /\
  translation s' = Some Examples.cue /\
  script s' = None /\
  status s' = TRANSLATED /\
  error s' = Some (lit "Failed to generate script.").
Proof.
  apply (@extract_failure_keeps_job Examples.failing Examples.withTimecodes
           Examples.translatedCue (lit "Speaker 1: hola")
           (ErrorObj (lit "Failed to generate script."))).
  - vm_compute. left. reflexivity.
  - reflexivity.
Defined.

(** X21.  When the extraction call succeeds, the quotes become the script,
    the status becomes [SUMMARIZED], an earlier error is cleared, and the
    transcript and the translation are left as they were; from then on the
    card offers the generate section no more, and the export has all it
    needs. *)
Theorem extract_success (svc : Services) (p : Props) (s : State)
        (tr tl : str) (quotes : list ScriptQuote) :
  transcript s = Some tr -> tr <> [] ->
  translation s = Some tl -> tl <> [] ->
  generateScript svc (if addTimecodes p then stripSrtTimecodes tl else tl)
  = Ok quotes ->
  let s' := fst (run svc (handleGenerateScript p s) s) in
  script s' = Some quotes /\
  status s' = SUMMARIZED /\
  error s' = None /\
  transcript s' = Some tr /\
  translation s' = Some tl /\
  Card.showsGenerate (renderContent p s') = false /\
  Card.handleDownloadDocx p s'
  = Some (DocxGenerator.generateDocx (fileName (file p)) tr tl quotes).
Proof.
  intros Htr Hntr Htl Hntl Hr.
  rewrite (@textForScript_sent svc p s tl Htl Hntl). cbn zeta. cbn [fst].
  rewrite Hr. unfold Card.handleDownloadDocx, renderContent. cbn.
  rewrite Htr, Htl, (truthy_nonempty Hntr), (truthy_nonempty Hntl).
  repeat split.
Qed.

Lemma extract_success_witness :
  let s' := fst (run Examples.echo
                     (handleGenerateScript Examples.withTimecodes
                                           Examples.translatedCue)
                     Examples.translatedCue) in
  script s' = Some [mkQuote (lit "Speaker 1") (lit "hola")] /\
  status s' = SUMMARIZED /\
  error s' = None /\
  transcript s' = Some (lit "Speaker 1: hello") /\
  translation s' = Some Examples.cue /\
  Card.showsGenerate (renderContent Examples.withTimecodes s') = false /\
  Card.handleDownloadDocx Examples.withTimecodes s'
  = Some (DocxGenerator.generateDocx
            (fileName (file Examples.withTimecodes))
            (lit "Speaker 1: hello") Examples.cue
            [mkQuote (lit "Speaker 1") (lit "hola")]).
Proof.
  apply (@extract_success Examples.echo Examples.withTimecodes
           Examples.translatedCue (lit "Speaker 1: hello") Examples.cue
           [mkQuote (lit "Speaker 1") (lit "hola")]).
  - reflexivity.
  - vm_compute. discriminate.
  - reflexivity.
  - vm_compute. discriminate.
  - reflexivity.
Defined.

(** X22.  With the timecode option off, the quote-extraction action sends
    the translation as it is, arrow lines and counters included. *)
Theorem extract_passes_raw_translation (svc : Services) (p : Props)
        (s : State) (t : str) :
  addTimecodes p = false ->
  translation s = Some t ->
  t <> [] ->
  snd (run svc (handleGenerateScript p s) s) = [CallGenerate t].
Proof.
  intros Hp Ht Hne. rewrite (@textForScript_sent svc p s t Ht Hne).
  rewrite Hp. reflexivity.
Qed.

Lemma extract_passes_raw_translation_witness :
  snd (run Examples.echo
           (handleGenerateScript (mkProps Examples.interview false)
                                 Examples.translatedCue)
           Examples.translatedCue)
  = [CallGenerate Examples.cue].
Proof.
  apply (@extract_passes_raw_translation Examples.echo
           (mkProps Examples.interview false) Examples.translatedCue
           Examples.cue).
  - reflexivity.
  - reflexivity.
  - vm_compute. discriminate.
Defined.

(** ** The artifacts of a job, with calls in flight *)













(* ================================================================== *)
(** * Further properties of the service calls *)
(* ================================================================== *)

(** ** What the timecode pattern matches *)

Lemma matchHere_One (cls : code -> bool) (r : regex) (s : str) :
  matchHere (One cls :: r) s = true
  <-> exists c s', s = c :: s' /\ cls c = true /\ matchHere r s' = true.
Proof.
  destruct s as [|c s]; simpl.
  - split; [discriminate|]. intros (c & s' & H & _). discriminate H.
  - rewrite andb_true_iff. split.
    + intros [Hc Hr]. exists c, s. auto.
    + intros (c' & s' & H & Hc & Hr). injection H as -> ->. auto.
Qed.

Lemma matchHere_Star (cls : code -> bool) (r : regex) (s : str) :
  matchHere (Star cls :: r) s = true
  <-> exists w s', s = w ++ s' /\ forallb cls w = true
                   /\ matchHere r s' = true.
Proof.
  change (matchHere (Star cls :: r) s) with (starLoop cls (matchHere r) s).
  split.
  - induction s as [|c s IH]; simpl; intros H.
    + rewrite orb_false_r in H. exists [], []. auto.
    + apply orb_true_iff in H as [H|H].
      * exists [], (c :: s). auto.
      * apply andb_true_iff in H as [Hc H].
        destruct (IH H) as (w & s' & -> & Hw & Hr).
        exists (c :: w), s'. simpl. rewrite Hc, Hw. auto.
  - intros (w & s' & -> & Hw & Hr).
    induction w as [|c w IH]; simpl.
    + destruct s'; simpl; rewrite Hr; reflexivity.
    + simpl in Hw. apply andb_true_iff in Hw as [Hc Hw].
      rewrite Hc, (IH Hw). apply orb_true_r.
Qed.

Ltac one_unit H :=
  let c := fresh "c" in
  let s := fresh "s" in
  let Hc := fresh "Hc" in
  let E := fresh "E" in
  apply (proj1 (matchHere_One _ _ _)) in H;
  destruct H as (c & s & E & Hc & H); subst.

Lemma matchHere_stamp (r : regex) (s : str) :
  matchHere (GeminiService.stamp ++ r) s = true
  <-> exists a s', s = a ++ s' /\ Timecode.Stamp a /\ matchHere r s' = true.
Proof.
  unfold GeminiService.stamp. cbn [app]. split.
  - intros H. do 12 one_unit H.
    unfold chr in *.
    repeat match goal with
           | E : N.eqb _ _ = true |- _ => apply N.eqb_eq in E; subst
           end.
    eexists [_; _; _; _; _; _; _; _; _; _; _; _], _.
    split; [reflexivity|]. split; [|eassumption].
    do 9 eexists. split; [reflexivity|]. cbn [forallb].
    repeat match goal with
           | E : isDigit _ = true |- _ => rewrite E; clear E
           end.
    reflexivity.
  - intros (a & s' & -> & Ha & Hr).
    destruct Ha as (h1 & h2 & m1 & m2 & s1 & s2 & f1 & f2 & f3 & -> & Hd).
    cbn [forallb] in Hd.
    repeat match goal with
           | H : _ && _ = true |- _ => apply andb_true_iff in H as [? H]
           end.
    cbn [app matchHere]. unfold chr.
    repeat match goal with
           | E : isDigit _ = true |- _ => rewrite E; clear E
           end.
    rewrite !N.eqb_refl. cbn [andb]. assumption.
Qed.

Lemma matchHere_arrow (r : regex) (s : str) :
  matchHere (GeminiService.arrowItems ++ r) s = true
  <-> exists s', s = arrow ++ s' /\ matchHere r s' = true.
Proof.
  unfold GeminiService.arrowItems. cbn [app]. split.
  - intros H. do 3 one_unit H. unfold chr in *.
    repeat match goal with
           | E : N.eqb _ _ = true |- _ => apply N.eqb_eq in E; subst
           end.
    eexists. split; [reflexivity|assumption].
  - intros (s' & -> & Hr). cbn. assumption.
Qed.

Lemma matchHere_timecodeRegex (s : str) :
  matchHere GeminiService.timecodeRegex s = true
  <-> exists a gap1 gap2 b post,
      s = a ++ gap1 ++ arrow ++ gap2 ++ b ++ post /\
      Timecode.Stamp a /\ Timecode.Stamp b /\
      forallb isWhiteSpace gap1 = true /\ forallb isWhiteSpace gap2 = true.
Proof.
  unfold GeminiService.timecodeRegex.
  rewrite <- (app_nil_r GeminiService.stamp) at 2.
  change ([Star isWhiteSpace] ++ GeminiService.arrowItems
          ++ [Star isWhiteSpace] ++ GeminiService.stamp ++ [])
    with (Star isWhiteSpace :: (GeminiService.arrowItems
          ++ (Star isWhiteSpace :: (GeminiService.stamp ++ [])))).
  split.
  - intros H.
    apply matchHere_stamp in H as (a & s1 & -> & Ha & H).
    apply matchHere_Star in H as (gap1 & s2 & -> & Hg1 & H).
    apply matchHere_arrow in H as (s3 & -> & H).
    apply matchHere_Star in H as (gap2 & s4 & -> & Hg2 & H).
    apply matchHere_stamp in H as (b & post & -> & Hb & _).
    exists a, gap1, gap2, b, post. auto.
  - intros (a & gap1 & gap2 & b & post & -> & Ha & Hb & Hg1 & Hg2).
    apply matchHere_stamp. exists a, (gap1 ++ arrow ++ gap2 ++ b ++ post).
    repeat split; try assumption.
    apply matchHere_Star. exists gap1, (arrow ++ gap2 ++ b ++ post).
    repeat split; try assumption.
    apply matchHere_arrow. exists (gap2 ++ b ++ post).
    split; [reflexivity|].
    apply matchHere_Star. exists gap2, (b ++ post).
    repeat split; try assumption.
    apply matchHere_stamp. exists b, post. auto.
Qed.

Lemma test_anywhere (r : regex) (pre rest : str) :
  matchHere r rest = true -> JS.test r (pre ++ rest) = true.
Proof.
  intros H. induction pre as [|c pre IH]; simpl.
  - destruct rest; simpl; rewrite H; reflexivity.
  - rewrite IH. apply orb_true_r.
Qed.

(** X24.  The translation service takes a text for timecoded exactly when
    the text holds, anywhere, a stamp [HH:MM:SS,mmm], the arrow and a
    second stamp, with any white space, line breaks included, on either
    side of the arrow. *)
Theorem hasSrtTimecodes_holds_range (text : str) :
  GeminiService.hasSrtTimecodes text = true <-> Timecode.HoldsRange text.
Proof.
  unfold GeminiService.hasSrtTimecodes, Timecode.HoldsRange. split.
  - intros H. apply test_matchHere in H as (pre & rest & -> & H).
    apply matchHere_timecodeRegex in H
      as (a & gap1 & gap2 & b & post & -> & Ha & Hb & Hg1 & Hg2).
    exists pre, a, gap1, gap2, b, post. auto.
  - intros (pre & a & gap1 & gap2 & b & post & -> & Ha & Hb & Hg1 & Hg2).
    apply test_anywhere. apply matchHere_timecodeRegex.
    exists a, gap1, gap2, b, post. auto.
Qed.

(** ** Failures of the service calls, as the card reports them *)

(** X25.  When the translation request fails, whatever was thrown, the
    translate action stores the message [Failed to translate text.]; when
    it succeeds, the response text becomes the translation as it is. *)
Theorem translate_request_outcome
        (generateContent : str -> str -> result str)
        (transcribe : File -> bool -> result str)
        (generate : str -> result (list ScriptQuote))
        (s : State) (T : str) :
  transcript s = Some T ->
  T <> [] ->
  let svc := mkServices transcribe
                        (GeminiService.translateText generateContent)
                        generate in
  let s' := fst (run svc (handleTranslate s) s) in
  match generateContent (lit "gemini-2.5-flash")
          (GeminiService.translatePrompt T (langName (targetLanguage s))) with
  | Ok responseText =>
      translation s' = Some responseText /\ status s' = TRANSLATED
  | Throw _ =>
      error s' = Some (lit "Failed to translate text.")
      /\ translation s' = translation s /\ status s' = status s
  end.
Proof.
  intros HT Hne. unfold handleTranslate.
  rewrite HT, (truthy_nonempty Hne). cbn [negb run translateText].
  unfold GeminiService.translateText.
  destruct (generateContent (lit "gemini-2.5-flash")
              (GeminiService.translatePrompt T (langName (targetLanguage s))));
    cbn; repeat split.
Qed.

Lemma translate_request_outcome_witness :
  let svc := mkServices (fun _ _ => Ok [])
                        (GeminiService.translateText (fun _ _ => Throw NonError))
                        (fun _ => Ok []) in
  let s' := fst (run svc (handleTranslate Examples.completedHello)
                     Examples.completedHello) in
  error s' = Some (lit "Failed to translate text.")
  /\ translation s' = None /\ status s' = COMPLETED.
Proof.
  apply (@translate_request_outcome (fun _ _ => Throw NonError)
           (fun _ _ => Ok []) (fun _ => Ok [])
           Examples.completedHello (lit "Speaker 1: hello")).
  - reflexivity.
  - vm_compute. discriminate.
Defined.


(** ** Reading the data URL of the file *)

Lemma split_after_mark (rest : str) :
  GeminiAudio.split GeminiAudio.base64Mark (GeminiAudio.base64Mark ++ rest)
  = [] :: GeminiAudio.split GeminiAudio.base64Mark rest.
Proof. reflexivity. Qed.

Lemma no_mark_in_front (pre rest : str) :
  pre <> [] -> ~ In GeminiService.COMMA pre ->
  startsWith GeminiAudio.base64Mark (pre ++ GeminiAudio.base64Mark ++ rest)
  = false.
Proof.
  intros Hne Hc.
  destruct (startsWith GeminiAudio.base64Mark
              (pre ++ GeminiAudio.base64Mark ++ rest)) eqn:E; [|reflexivity].
  apply startsWith_iff in E as [post E]. exfalso.
  destruct pre as [|p0 pre]; [congruence|].
  do 7 (destruct pre as [|? pre]; [cbv in E; congruence|]).
  cbv in E. injection E as -> -> -> -> -> -> -> -> _.
  apply Hc. simpl. tauto.
Qed.

Lemma split_before_mark (pre rest : str) :
  ~ In GeminiService.COMMA pre ->
  GeminiAudio.split GeminiAudio.base64Mark
                    (pre ++ GeminiAudio.base64Mark ++ rest)
  = pre :: GeminiAudio.split GeminiAudio.base64Mark rest.
Proof.
  induction pre as [|c pre IH]; intros Hc.
  - apply split_after_mark.
  - unfold GeminiAudio.split in *.
    change (((c :: pre) ++ GeminiAudio.base64Mark ++ rest))
      with (c :: (pre ++ GeminiAudio.base64Mark ++ rest)).
    cbn [GeminiAudio.splitAt].
    change (c :: pre ++ GeminiAudio.base64Mark ++ rest)
      with ((c :: pre) ++ GeminiAudio.base64Mark ++ rest).
    rewrite no_mark_in_front; [|discriminate|assumption].
    rewrite IH; [reflexivity|].
    intros Hin. apply Hc. right. assumption.
Qed.

Lemma split_no_mark (data : str) :
  ~ In 59%N data ->
  GeminiAudio.split GeminiAudio.base64Mark data = [data].
Proof.
  unfold GeminiAudio.split.
  induction data as [|c data IH]; intros H; [reflexivity|].
  cbn [GeminiAudio.splitAt].
  assert (Hs : startsWith GeminiAudio.base64Mark (c :: data) = false).
  { change GeminiAudio.base64Mark
      with (59 :: lit "base64,")%N. cbn [startsWith].
    destruct (N.eqb 59 c) eqn:E; [|reflexivity].
    apply N.eqb_eq in E. subst c. exfalso. apply H. left. reflexivity. }
  rewrite Hs, IH; [reflexivity|].
  intros Hin. apply H. right. assumption.
Qed.

(** X27.  From a data URL [data:<type>;base64,<payload>], the declared type
    and the payload are recovered as they are, for every type without
    colon or comma and every payload without semicolon (a base64 payload
    has none). *)
Theorem data_url_round_trip (mimeType data : str) :
  ~ In GeminiService.COLON mimeType ->
  ~ In GeminiService.COMMA mimeType ->
  ~ In 59%N data ->
  GeminiAudio.parseDataUrl
    (lit "data:" ++ mimeType ++ GeminiAudio.base64Mark ++ data)
  = (Some mimeType, Some data).
Proof.
  intros Hcolon Hcomma Hsemi. unfold GeminiAudio.parseDataUrl.
  rewrite app_assoc.
  assert (Hpre : ~ In GeminiService.COMMA (lit "data:" ++ mimeType)).
  { rewrite in_app_iff. intros [H|H]; [|contradiction].
    vm_compute in H. intuition discriminate. }
  rewrite (@split_before_mark _ _ Hpre), (@split_no_mark _ Hsemi).
  cbn [nth nth_error].
  change (lit "data:" ++ mimeType)
    with (lit "data" ++ GeminiService.COLON :: mimeType).
  rewrite splitOn_line_break
    by (vm_compute; intuition discriminate).
  rewrite splitOn_line by assumption. reflexivity.
Qed.

Lemma data_url_round_trip_witness :
  GeminiAudio.parseDataUrl
    (lit "data:" ++ lit "audio/mpeg" ++ GeminiAudio.base64Mark ++ lit "SUQzBAA=")
  = (Some (lit "audio/mpeg"), Some (lit "SUQzBAA=")).
Proof.
  apply (@data_url_round_trip (lit "audio/mpeg") (lit "SUQzBAA=")).
  - vm_compute. intuition discriminate.
  - vm_compute. intuition discriminate.
  - vm_compute. intuition discriminate.
Defined.

(* ================================================================== *)
(** * The filter on an SRT document *)
(* ================================================================== *)

Lemma digit_not_space (c : code) : isDigit c = true -> isWhiteSpace c = false.
Proof.
  intros H. apply isDigit_range in H.
  destruct (isWhiteSpace c) eqn:E; [exfalso|reflexivity].
  unfold isWhiteSpace in E.
  repeat (apply orb_true_iff in E as [E|E]);
    try (apply N.eqb_eq in E; lia);
    apply andb_true_iff in E as [E1 E2]; apply N.leb_le in E1, E2; lia.
Qed.

Lemma trimStart_digits (c : str) :
  forallb isDigit c = true -> trimStart c = c.
Proof.
  destruct c as [|x c]; [reflexivity|]. simpl. intros H.
  apply andb_true_iff in H as [Hx _].
  rewrite (digit_not_space _ Hx). reflexivity.
Qed.

Lemma trim_digits (c : str) : forallb isDigit c = true -> trim c = c.
Proof.
  intros H. unfold trim, trimEnd. rewrite (trimStart_digits _ H).
  rewrite trimStart_digits by (rewrite forallb_rev; assumption).
  apply rev_involutive.
Qed.

Lemma counter_dropped (c : str) :
  c <> [] -> forallb isDigit c = true -> keepLine c = false.
Proof.
  intros Hne Hd. apply keepLine_false. right. left.
  unfold Spec.DigitsOnly. rewrite (trim_digits _ Hd). split; [assumption|].
  apply Forall_forall. intros x Hx. apply isDigit_range.
  rewrite forallb_forall in Hd. auto.
Qed.

Lemma rangeLine_dropped (c : SrtDocument.Cue) :
  keepLine (SrtDocument.rangeLine c) = false.
Proof.
  apply keepLine_false. left.
  exists (SrtDocument.rangeStart c ++ lit " "),
         (lit " " ++ SrtDocument.rangeEnd c).
  unfold SrtDocument.rangeLine. rewrite <- app_assoc. reflexivity.
Qed.

Lemma speech_lines_kept (lines : list str) :
  Forall SrtDocument.SpeechLine lines -> filter keepLine lines = lines.
Proof.
  intros H. apply filter_all. apply forallb_forall. intros l Hl.
  rewrite Forall_forall in H. apply (H l Hl).
Qed.

Lemma cue_filtered (c : SrtDocument.Cue) :
  SrtDocument.WellFormed c ->
  filter keepLine (SrtDocument.cueLines c) = SrtDocument.cueText c.
Proof.
  intros (Hne & Hd & _ & _ & Ht). unfold SrtDocument.cueLines.
  cbn [filter]. rewrite (counter_dropped Hne Hd), rangeLine_dropped.
  rewrite filter_app, (speech_lines_kept Ht). simpl. apply app_nil_r.
Qed.

Lemma cues_filtered (cues : list SrtDocument.Cue) :
  Forall SrtDocument.WellFormed cues ->
  filter keepLine (flat_map SrtDocument.cueLines cues)
  = flat_map SrtDocument.cueText cues.
Proof.
  induction 1 as [|c cues Hc Hcs IH]; [reflexivity|].
  cbn [flat_map]. rewrite filter_app, (cue_filtered Hc), IH. reflexivity.
Qed.

Lemma stamp_plain (a : str) : Timecode.Stamp a -> SrtDocument.plainLine a.
Proof.
  intros (h1 & h2 & m1 & m2 & s1 & s2 & f1 & f2 & f3 & -> & Hd).
  cbn [forallb] in Hd.
  repeat match goal with
         | H : _ && _ = true |- _ => apply andb_true_iff in H as [? H]
         end.
  repeat match goal with
         | H : isDigit _ = true |- _ => apply isDigit_range in H
         end.
  split; simpl; intros Hin;
    repeat match goal with
           | H : _ \/ _ |- _ => destruct H as [H|H]
           end;
    try contradiction;
    try (unfold LF, CR in *; subst; lia);
    try discriminate.
Qed.

Lemma plainLine_app (a b : str) : SrtDocument.plainLine a -> SrtDocument.plainLine b -> SrtDocument.plainLine (a ++ b).
Proof.
  intros [Ha1 Ha2] [Hb1 Hb2]. split; rewrite in_app_iff; tauto.
Qed.

Lemma digits_plain (c : str) : forallb isDigit c = true -> SrtDocument.plainLine c.
Proof.
  intros H. rewrite forallb_forall in H.
  split; intros Hin; apply H in Hin; discriminate Hin.
Qed.

Lemma cueLines_plain (c : SrtDocument.Cue) :
  SrtDocument.WellFormed c -> Forall SrtDocument.plainLine (SrtDocument.cueLines c).
Proof.
  intros (_ & Hd & Ha & Hb & Ht). unfold SrtDocument.cueLines.
  constructor; [apply digits_plain; assumption|].
  constructor.
  - unfold SrtDocument.rangeLine.
    apply plainLine_app; [apply stamp_plain; assumption|].
    apply plainLine_app; [|apply stamp_plain; assumption].
    split; vm_compute; intuition discriminate.
  - apply Forall_app. split.
    + apply Forall_impl with (2 := Ht). intros l (_ & H1 & H2). split; assumption.
    + constructor; [|constructor]. split; intros [].
Qed.

Lemma plain_endsWithCR (l : str) : SrtDocument.plainLine l -> Spec.endsWithCR l = false.
Proof.
  intros [_ H]. unfold Spec.endsWithCR.
  destruct l as [|c l]; [reflexivity|].
  destruct (isCR (last (c :: l) 0%N)) eqn:E; [|reflexivity].
  apply N.eqb_eq in E. exfalso. apply H. rewrite <- E.
  destruct (@exists_last _ (c :: l)) as (l' & x & Hx); [discriminate|].
  rewrite Hx, last_last. apply in_or_app. right. left. reflexivity.
Qed.

Lemma plain_innerLinesClean (lines : list str) :
  Forall SrtDocument.plainLine lines -> Spec.innerLinesClean lines.
Proof.
  induction 1 as [|l lines Hl Hls IH]; [exact I|].
  destruct lines as [|m lines]; [exact I|].
  split; [apply plain_endsWithCR; assumption|assumption].
Qed.

(** X28.  On an SRT document -- cues of a numeric counter, a range line of
    two stamps around the arrow, lines of speech and a blank line, one per
    line -- the filter returns exactly the lines of speech of the cues, in
    order, joined with newlines. *)
Theorem srt_document_filtered (cues : list SrtDocument.Cue) :
  Forall SrtDocument.WellFormed cues ->
  stripSrtTimecodes (SrtDocument.document cues)
  = join [LF] (flat_map SrtDocument.cueText cues).
Proof.
  intros H. unfold stripSrtTimecodes.
  destruct (truthy (SrtDocument.document cues)) eqn:Et; cbn [negb].
  - unfold SrtDocument.document in *.
    assert (Hp : Forall SrtDocument.plainLine (flat_map SrtDocument.cueLines cues)).
    { apply Forall_flat_map. apply Forall_impl with (2 := H).
      apply cueLines_plain. }
    rewrite splitLines_join.
    + rewrite (cues_filtered H). reflexivity.
    + intros E. rewrite E in Et. discriminate Et.
    + apply Forall_impl with (2 := Hp). intros l [Hl _]. exact Hl.
    + apply plain_innerLinesClean. assumption.
  - destruct cues as [|c cues]; [reflexivity|]. exfalso.
    inversion H as [|? ? (Hne & _) _]; subst.
    unfold SrtDocument.document in Et. cbn [flat_map] in Et.
    unfold SrtDocument.cueLines in Et.
    change ((SrtDocument.counter c :: SrtDocument.rangeLine c
             :: SrtDocument.cueText c ++ [[]])
            ++ flat_map SrtDocument.cueLines cues)
      with (SrtDocument.counter c
            :: (SrtDocument.rangeLine c :: SrtDocument.cueText c ++ [[]])
               ++ flat_map SrtDocument.cueLines cues) in Et.
    cbn [app] in Et.
    change (join [LF] (SrtDocument.counter c :: SrtDocument.rangeLine c :: ?x))
      with (SrtDocument.counter c ++ LF
            :: join [LF] (SrtDocument.rangeLine c :: x)) in Et.
    destruct (SrtDocument.counter c); [congruence|discriminate Et].
Qed.

Lemma srt_document_filtered_witness :
  stripSrtTimecodes
    (SrtDocument.document
       [SrtDocument.mkCue (lit "1") (lit "00:00:01,234") (lit "00:00:05,678")
                          [lit "Speaker 1: hola"];
        SrtDocument.mkCue (lit "2") (lit "00:00:06,000") (lit "00:00:07,500")
                          [lit "Speaker 2: adios"; lit "amigo"]])
  = join [LF] [lit "Speaker 1: hola"; lit "Speaker 2: adios"; lit "amigo"].
Proof.
  apply (@srt_document_filtered
           [SrtDocument.mkCue (lit "1") (lit "00:00:01,234") (lit "00:00:05,678")
                              [lit "Speaker 1: hola"];
            SrtDocument.mkCue (lit "2") (lit "00:00:06,000") (lit "00:00:07,500")
                              [lit "Speaker 2: adios"; lit "amigo"]]).
  repeat constructor; try (vm_compute; intuition discriminate);
    try (do 9 eexists; split; reflexivity).
Defined.

(* ================================================================== *)
(** * The order of the statuses *)
(* ================================================================== *)

(** X29.  The comparisons [>=] and [>] that the card makes on two statuses
    follow the alphabetical order of their names ([COMPLETED], [ERROR],
    [PENDING], [SUMMARIZED], [TRANSCRIBING], [TRANSLATED]), not the order
    of the pipeline; [===] is equality of the statuses. *)
Theorem status_comparisons_alphabetical (a b : TranscriptionStatus) :
  status_geb a b
  = Nat.leb (StatusOrder.alphabeticalRank b) (StatusOrder.alphabeticalRank a) /\
  status_gtb a b
  = Nat.ltb (StatusOrder.alphabeticalRank b) (StatusOrder.alphabeticalRank a) /\
  (status_eqb a b = true <-> a = b).
Proof.
  destruct a, b; repeat split; intros; try reflexivity; discriminate.
Qed.
